(** * Raster operators of heman ([src/ops.c]): a shallow embedding

    The eight operators of [ops.c] are embedded as programs of a small
    state-and-failure monad over a store of images.  An image is the C
    struct [heman_image] (width, height, nbands and a flat sample
    buffer); a pointer to an image is a location of the store.  A program
    that trips an [assert], dereferences a dangling pointer, or accesses a
    buffer out of bounds or before it was initialised has no result
    ([None]).

    Conventions of the embedding:
    - C [int] values are integers of [Z].  [int] has 32 bits; a statement
      about an operator assumes, by a hypothesis [in_int], that the products
      of dimensions which the operator forms as [int] (loop bounds, buffer
      sizes and offsets) are within [INT_MAX], where [int] and [Z]
      arithmetic agree.
    - [HEMAN_FLOAT] is declared in a header that is not part of [ops.c];
      it is taken as a parameter: the class [Scalar] lists the arithmetic
      the operators use, including the [double] arithmetic of the mixed
      expressions of [heman_ops_sobel].  The arithmetic of the program is
      the instance [f32]: IEEE 754 binary32 with binary64 for [double],
      every operation rounded to nearest-even in its own type ([ops.c]
      copies [sizeof(float)] bytes per sample and reads pixels as [kmVec3]).
      The rationals [Qc] are a second instance, used in worked examples.
    - A statement holds for every [Scalar] unless it is stated for
      [FloatLaws], a short list of identities that rounding preserves; they
      are proved for [f32] and for [Qc].  No statement assumes that sample
      arithmetic is associative, distributive or exact.
    - [#pragma omp parallel for] loops are run in index order.
    - The store keeps a ghost log of every sample written. *)

From Stdlib Require Import ZArith QArith Qcanon Lia Ring Field SpecFloat.
From stdpp Require Import base tactics option list list_numbers numbers gmap.

Local Open Scope Z_scope.

(** ** Sample arithmetic *)

(** The operations [ops.c] applies to [HEMAN_FLOAT] values: conversion
    from [int], the four arithmetic operations, and the comparisons [>]
    and [>=]; and the operations it applies to [double] values, which occur
    in [heman_ops_sobel]: the promotion of a [HEMAN_FLOAT], the conversion
    back on assignment, the constants, and [+], [-], [*], [/] and [>]. *)
Class Scalar (F : Type) := {
  of_int : Z → F;
  fadd : F → F → F;
  fsub : F → F → F;
  fmul : F → F → F;
  fdiv : F → F → F;
  fgt : F → F → bool;
  fge : F → F → bool;
  double : Type;
  to_double : F → double;
  of_double : double → F;
  d_of_int : Z → double;
  dadd : double → double → double;
  dsub : double → double → double;
  dmul : double → double → double;
  ddiv : double → double → double;
  dgt : double → double → bool
}.

(** The samples that are numbers: neither an infinity nor a NaN. *)
Class Finite (F : Type) := finite : F → Prop.

(** Identities of sample arithmetic that survive rounding.  [>] is
    irreflexive and asymmetric and puts 1 above 0; a finite sample minus
    itself is 0; 0 times 0 is 0; adding 0 to a square leaves the square; and
    interpolating from a finite sample [c] to 0 with factor 1,
    [c + 1 * (0 - c)], gives 0. *)
Class FloatLaws (F : Type) `{Scalar F} `{Finite F} : Prop := {
  fgt_irrefl : ∀ a : F, fgt a a = false;
  fgt_asym : ∀ a b : F, fgt a b = true → fgt b a = false;
  fgt_one_zero : fgt (of_int 1 : F) (of_int 0) = true;
  fsub_diag : ∀ p : F, finite p → fsub p p = of_int 0;
  fmul_zero_zero : fmul (of_int 0 : F) (of_int 0) = of_int 0;
  fadd_zero_sq : ∀ d : F, fadd (of_int 0) (fmul d d) = fmul d d;
  fadd_sq_zero : ∀ d : F, fadd (fmul d d) (of_int 0) = fmul d d;
  lerp_one_finite :
    ∀ c : F, finite c → fadd c (fmul (of_int 1) (fsub (of_int 0) c)) = of_int 0
}.

(** ** The range of [int] *)

Definition INT_MAX : Z := 2147483647.

(** The values of a 32-bit [int]. *)
Definition in_int (z : Z) : Prop := - INT_MAX - 1 ≤ z ≤ INT_MAX.

(** The colour-to-luminance map of [heman_color_to_grayscale], which lives
    in another file of the library. *)
Class Luminance (F : Type) := luma : F → F → F → F.

(** ** Images and the store *)

Record heman_image (F : Type) := mk_image {
  width : Z;
  height : Z;
  nbands : Z;
  data : list (option F)
}.
Arguments mk_image {F} _ _ _ _.
Arguments width {F} _.
Arguments height {F} _.
Arguments nbands {F} _.
Arguments data {F} _.

Definition set_data {F} (img : heman_image F) (d : list (option F)) : heman_image F :=
  mk_image (width img) (height img) (nbands img) d.

(** An image pointer. *)
Abbreviation loc := positive.

Record state (F : Type) := mk_state {
  mem : gmap loc (heman_image F);
  wlog : list (loc * Z)
}.
Arguments mk_state {F} _ _.
Arguments mem {F} _.
Arguments wlog {F} _.

(** ** The monad of operator programs *)

Definition M (F A : Type) : Type := state F → option (A * state F).

Global Instance M_ret {F} : MRet (M F) := λ A a s, Some (a, s).
Global Instance M_bind {F} : MBind (M F) := λ A B k m s,
  match m s with
  | Some (a, s') => k a s'
  | None => None
  end.

(** [assert(b)] *)
Definition assert {F} (b : bool) : M F unit :=
  λ s, if b then Some ((), s) else None.

(** Reading the fields of [*p]. *)
Definition deref {F} (p : loc) : M F (heman_image F) :=
  λ s, img ← mem s !! p; Some (img, s).

(** The cell at offset [off] of a buffer, if the offset is in bounds. *)
Definition cell {F} (d : list (option F)) (off : Z) : option (option F) :=
  if bool_decide (0 ≤ off) then d !! Z.to_nat off else None.

(** [p->data[off]] as an rvalue. *)
Definition load {F} (p : loc) (off : Z) : M F F :=
  λ s, img ← mem s !! p; c ← cell (data img) off; v ← c; Some (v, s).

(** [p->data[off] = v] *)
Definition store {F} (p : loc) (off : Z) (v : F) : M F unit :=
  λ s, img ← mem s !! p;
       _ ← cell (data img) off;
       Some ((), mk_state (<[p := set_data img (<[Z.to_nat off := Some v]> (data img))]> (mem s))
                          (wlog s ++ [(p, off)])).

(** [images[i]] for an array of image pointers. *)
Definition index {F} (images : list loc) (i : Z) : M F loc :=
  λ s, if bool_decide (0 ≤ i) then p ← images !! Z.to_nat i; Some (p, s) else None.

(** [for (int i = lo; i < hi; i++)] with a loop-carried value. *)
Fixpoint fold_from {F A} (i : Z) (n : nat) (body : Z → A → M F A) (a : A) : M F A :=
  match n with
  | O => mret a
  | S n' => a' ← body i a; fold_from (i + 1) n' body a'
  end.

Definition for_fold {F A} (lo hi : Z) (body : Z → A → M F A) (a : A) : M F A :=
  fold_from lo (Z.to_nat (hi - lo)) body a.

Definition for_range {F} (lo hi : Z) (body : Z → M F unit) : M F unit :=
  for_fold lo hi (λ i _, body i) ().

(** ** The image store ([image.c], not part of [ops.c]) *)

(** Modelled from the spec: [heman_image_create(width, height, nbands)]
    allocates a fresh image whose buffer has [width * height * nbands]
    samples, none of them initialised. *)
Definition heman_image_create {F} (w h nb : Z) : M F loc :=
  λ s, let p := fresh (dom (mem s)) in
       Some (p, mk_state (<[p := mk_image w h nb (replicate (Z.to_nat (w * h * nb)) None)]> (mem s))
                         (wlog s)).

(** Modelled from the spec: [heman_image_destroy] frees an image. *)
Definition heman_image_destroy {F} (p : loc) : M F unit :=
  λ s, _ ← mem s !! p; Some ((), mk_state (delete p (mem s)) (wlog s)).

(** Modelled from the spec: [heman_image_texel(img, x, y)] points at band 0
    of pixel [(x, y)], which is at offset [(y * width + x) * nbands]. *)
Definition heman_image_texel {F} (p : loc) (x y : Z) : M F Z :=
  img ← deref p; mret ((y * width img + x) * nbands img).

(** Modelled from the spec: the macro [MIN] of [image.h], the smaller of
    its arguments.  On [int] arguments it is [Z.min]. *)
Definition MIN {F} `{Scalar F} (a b : F) : F := if fgt a b then b else a.

(** Modelled from the spec: the macro [MAX] of [image.h], the larger of
    its arguments.  On [int] arguments it is [Z.max]. *)
Definition MAX {F} `{Scalar F} (a b : F) : F := if fgt a b then a else b.

(** Modelled from the spec: the macro [CLAMP] of [image.h], which brings
    [v] into the interval from [lo] to [hi]. *)
Definition CLAMP {F} `{Scalar F} (v lo hi : F) : F := MAX lo (MIN hi v).

(** Modelled from the spec: [heman_color_to_grayscale] returns a fresh
    single-band image of the same dimensions holding the luminance of each
    pixel of a 3-band image. *)
Definition heman_color_to_grayscale {F} `{Luminance F} (p : loc) : M F loc :=
  img ← deref p;
  assert (bool_decide (nbands img = 3));;
  gray ← heman_image_create (width img) (height img) 1;
  for_range 0 (width img * height img) (λ i,
    r ← load p (3 * i);
    g ← load p (3 * i + 1);
    b ← load p (3 * i + 2);
    store gray i (luma r g b));;
  mret gray.

(** Modelled from the spec: an edge colour ([heman_color], declared in a
    header outside [ops.c]) has three scalar components. *)
Definition heman_color (F : Type) : Type := F * F * F.

(** Modelled from the spec: the vector collaborator's linear interpolation
    [kmVec3Lerp(pOut, pV1, pV2, t)], with [pOut] and [pV1] pointing into
    image buffers and [pV2] at a local vector: each component becomes
    [v1 + t * (v2 - v1)]. *)
Definition kmVec3Lerp {F} `{Scalar F}
    (out : loc) (oout : Z) (v1 : loc) (ov1 : Z) (v2 : F * F * F) (t : F) : M F unit :=
  x ← load v1 ov1;
  store out oout (fadd x (fmul t (fsub (v2.1.1) x)));;
  y ← load v1 (ov1 + 1);
  store out (oout + 1) (fadd y (fmul t (fsub (v2.1.2) y)));;
  z ← load v1 (ov1 + 2);
  store out (oout + 2) (fadd z (fmul t (fsub (v2.2) z))).

(** ** The operators of [ops.c] *)

Section Ops.
Context {F : Type} `{Scalar F} `{Luminance F}.

(** [heman_ops_step].  The pointers [src] and [dst] start at the two
    buffers and advance by one sample per iteration, so that both are at
    offset [i] in iteration [i]. *)
Definition heman_ops_step (hmap : loc) (threshold : F) : M F loc :=
  h ← deref hmap;
  assert (bool_decide (nbands h = 1));;
  result ← heman_image_create (width h) (height h) 1;
  let size := height h * width h in
  for_range 0 size (λ i,
    v ← load hmap i;
    store result i (if fge v threshold then of_int 1 else of_int 0));;
  mret result.

(** [heman_ops_sweep].  [src] advances by one sample per inner iteration
    and is at offset [y * width + x] when column [x] of row [y] is read;
    [dst] advances by one sample per row. *)
Definition heman_ops_sweep (hmap : loc) : M F loc :=
  h ← deref hmap;
  assert (bool_decide (nbands h = 1));;
  result ← heman_image_create (height h) 1 1;
  let invw := fdiv (of_int 1) (of_int (width h)) in
  for_range 0 (height h) (λ y,
    acc ← for_fold 0 (width h) (λ x acc,
             v ← load hmap (y * width h + x);
             mret (fadd acc v)) (of_int 0);
    store result y (fmul acc invw));;
  mret result.

(** [copy_row], with its single-band fast path and the general path whose
    [while (nbands--)] loop copies the bands of one pixel (band counts are
    positive). *)
Definition copy_row (src dst : loc) (dstx y : Z) : M F unit :=
  s ← deref src;
  let w := width s in
  if bool_decide (nbands s = 1) then
    for_range 0 w (λ x,
      srcp ← heman_image_texel src x y;
      dstp ← heman_image_texel dst (dstx + x) y;
      v ← load src srcp;
      store dst dstp v)
  else
    for_range 0 w (λ x,
      srcp ← heman_image_texel src x y;
      dstp ← heman_image_texel dst (dstx + x) y;
      for_range 0 (nbands s) (λ b,
        v ← load src (srcp + b);
        store dst (dstp + b) v)).

(** The three assertions of the loops that compare [images[i]] with
    [images[0]]. *)
Definition assert_same_shape (images : list loc) (count w h nb : Z) : M F unit :=
  for_range 1 count (λ i,
    p ← index images i;
    hi ← deref p;
    assert (bool_decide (width hi = w));;
    assert (bool_decide (height hi = h));;
    assert (bool_decide (nbands hi = nb))).

(** [heman_ops_stitch_horizontal]: [images] is the array of image
    pointers, [count] its length as passed by the caller. *)
Definition heman_ops_stitch_horizontal (images : list loc) (count : Z) : M F loc :=
  assert (bool_decide (count > 0));;
  i0 ← index images 0;
  h0 ← deref i0;
  let w := width h0 in
  let h := height h0 in
  let nb := nbands h0 in
  assert_same_shape images count w h nb;;
  result ← heman_image_create (w * count) h nb;
  for_range 0 h (λ y,
    for_range 0 count (λ tile,
      p ← index images tile;
      copy_row p result (tile * w) y));;
  mret result.

(** [memcpy(dst->data + doff, src->data, n * sizeof(float))] *)
Definition memcpy (dst : loc) (doff : Z) (src : loc) (n : Z) : M F unit :=
  for_range 0 n (λ k, v ← load src k; store dst (doff + k) v).

(** [heman_ops_stitch_vertical]: [dst] advances by [size] samples per
    tile. *)
Definition heman_ops_stitch_vertical (images : list loc) (count : Z) : M F loc :=
  assert (bool_decide (count > 0));;
  i0 ← index images 0;
  h0 ← deref i0;
  let w := width h0 in
  let h := height h0 in
  let nb := nbands h0 in
  assert_same_shape images count w h nb;;
  result ← heman_image_create w (h * count) nb;
  let size := w * h * nb in
  for_range 0 count (λ tile,
    p ← index images tile;
    memcpy result (tile * size) p size);;
  mret result.

(** [heman_ops_normalize_f32]: no assertion on the band count; the loop
    runs over [height * width * nbands] samples. *)
Definition heman_ops_normalize_f32 (source : loc) (minv maxv : F) : M F loc :=
  src ← deref source;
  result ← heman_image_create (width src) (height src) (nbands src);
  let scale := fdiv (of_int 1) (fsub maxv minv) in
  let size := height src * width src * nbands src in
  for_range 0 size (λ i,
    s ← load source i;
    let v := fmul (fsub s minv) scale in
    store result i (CLAMP v (of_int 0) (of_int 1)));;
  mret result.

(** [heman_ops_laplacian]: [dst] starts at [result->data + y * width] in
    row [y] and advances by one sample per pixel. *)
Definition heman_ops_laplacian (heightmap : loc) : M F loc :=
  hm ← deref heightmap;
  assert (bool_decide (nbands hm = 1));;
  let w := width hm in
  let h := height hm in
  result ← heman_image_create w h 1;
  let maxx := w - 1 in
  let maxy := h - 1 in
  for_range 0 h (λ y,
    let y1 := Z.min (y + 1) maxy in
    for_range 0 w (λ x,
      let x1 := Z.min (x + 1) maxx in
      p ← heman_image_texel heightmap x y ≫= load heightmap;
      px ← heman_image_texel heightmap x1 y ≫= load heightmap;
      py ← heman_image_texel heightmap x y1 ≫= load heightmap;
      store result (y * w + x)
        (fadd (fmul (fsub p px) (fsub p px)) (fmul (fsub p py) (fsub p py)))));;
  mret result.

(** [heman_ops_accumulate]: the loop runs over [height * width] samples;
    [dst] and [src] may be the same image. *)
Definition heman_ops_accumulate (dst src : loc) : M F unit :=
  d ← deref dst;
  s ← deref src;
  assert (bool_decide (nbands d = nbands s));;
  assert (bool_decide (width d = width s));;
  assert (bool_decide (height d = height s));;
  let size := height d * width d in
  for_range 0 size (λ i,
    sv ← load src i;
    dv ← load dst i;
    store dst i (fadd dv sv)).

(** The eight samples of the grayscale image read for pixel [(x, y)],
    in the order [t00, t10, t20, t01, t21, t02, t12, t22]. *)
Definition sobel_samples (gray : loc) (w h x y : Z) : M F (F * F * F * F * F * F * F * F) :=
  let xm1 := Z.max (x - 1) 0 in
  let xp1 := Z.min (x + 1) (w - 1) in
  let ym1 := Z.max (y - 1) 0 in
  let yp1 := Z.min (y + 1) (h - 1) in
  t00 ← heman_image_texel gray xm1 ym1 ≫= load gray;
  t10 ← heman_image_texel gray x ym1 ≫= load gray;
  t20 ← heman_image_texel gray xp1 ym1 ≫= load gray;
  t01 ← heman_image_texel gray xm1 0 ≫= load gray;
  t21 ← heman_image_texel gray xp1 0 ≫= load gray;
  t02 ← heman_image_texel gray xm1 yp1 ≫= load gray;
  t12 ← heman_image_texel gray x yp1 ≫= load gray;
  t22 ← heman_image_texel gray xp1 yp1 ≫= load gray;
  mret (t00, t10, t20, t01, t21, t02, t12, t22).

(** The gradient test [gx * gx + gy * gy > 1e-5] on the eight samples,
    with [gx = t00 + 2.0 * t01 + t02 - t20 - 2.0 * t21 - t22] and
    [gy = t00 + 2.0 * t10 + t20 - t02 - 2.0 * t12 - t22].  The constants
    [2.0] and [1e-5] are [double]s: each sum is formed in [double], from left
    to right, and converted to [HEMAN_FLOAT] when it is assigned to [gx] or
    [gy]; [gx * gx + gy * gy] is formed in [HEMAN_FLOAT] and promoted for
    the comparison.  [1e-5] is the [double] nearest to 1/100000, which is the
    rounded quotient of 1 and 100000. *)
Definition sobel_edge_test (t : F * F * F * F * F * F * F * F) : bool :=
  let '(t00, t10, t20, t01, t21, t02, t12, t22) := t in
  let two := d_of_int 2 in
  let gx :=
    of_double
      (dsub (dsub (dsub (dadd (dadd (to_double t00) (dmul two (to_double t01)))
                              (to_double t02))
                        (to_double t20))
                  (dmul two (to_double t21)))
            (to_double t22)) in
  let gy :=
    of_double
      (dsub (dsub (dsub (dadd (dadd (to_double t00) (dmul two (to_double t10)))
                              (to_double t20))
                        (to_double t02))
                  (dmul two (to_double t12)))
            (to_double t22)) in
  dgt (to_double (fadd (fmul gx gx) (fmul gy gy))) (ddiv (d_of_int 1) (d_of_int 100000)).

(** [is_edge]: the outcome of the test converted to [HEMAN_FLOAT]. *)
Definition sobel_is_edge (t : F * F * F * F * F * F * F * F) : F :=
  if sobel_edge_test t then of_int 1 else of_int 0.

(** [heman_ops_sobel].  The buffers of [result] and [img] are walked as
    arrays of [kmVec3]: pixel [(x, y)] is at sample offset
    [3 * (y * width + x)].  [edge_color] is not read: [edge_rgb] is set to
    zero. *)
Definition heman_ops_sobel (img : loc) (edge_color : heman_color F) : M F loc :=
  im ← deref img;
  let w := width im in
  let h := height im in
  assert (bool_decide (nbands im = 3));;
  result ← heman_image_create w h 3;
  gray ← heman_color_to_grayscale img;
  let edge_rgb := (of_int 0, of_int 0, of_int 0) in
  for_range 0 h (λ y,
    for_range 0 w (λ x,
      t ← sobel_samples gray w h x y;
      let is_edge := sobel_is_edge t in
      kmVec3Lerp result (3 * (y * w + x)) img (3 * (y * w + x)) edge_rgb is_edge));;
  heman_image_destroy gray;;
  mret result.

End Ops.

(** ** Vocabulary of the statements *)

Section Vocabulary.
Context {F : Type}.

(** The sample a [load] returns; a [load] leaves the state alone. *)
Definition peek (s : state F) (p : loc) (off : Z) : option F :=
  img ← mem s !! p; c ← cell (data img) off; c.

(** The initialised samples of a buffer, in order. *)
Definition samples (img : heman_image F) : list F := omap id (data img).

(** The sample at an offset, if in bounds and initialised. *)
Definition sample (img : heman_image F) (off : Z) : option F :=
  c ← cell (data img) off; c.

(** Band [b] of pixel [(x, y)]. *)
Definition texel (img : heman_image F) (x y b : Z) : option F :=
  sample img ((y * width img + x) * nbands img + b).

(** The data model of the spec: positive dimensions and a fully
    initialised buffer of [width * height * nbands] samples. *)
Definition wf_image (img : heman_image F) : Prop :=
  0 < width img ∧ 0 < height img ∧ 0 < nbands img ∧
  Z.of_nat (length (data img)) = width img * height img * nbands img ∧
  Forall is_Some (data img).

Global Instance wf_image_dec img : Decision (wf_image img).
Proof. unfold wf_image. apply _. Defined.

(** An image given by its samples. *)
Definition img_of (w h nb : Z) (l : list F) : heman_image F :=
  mk_image w h nb (Some <$> l).

(** The buffer of a freshly created image. *)
Definition blank (w h nb : Z) : heman_image F :=
  mk_image w h nb (replicate (Z.to_nat (w * h * nb)) None).

(** The writes of a complete front-to-back fill of [n] samples. *)
Definition fill_log (r : loc) (n : Z) : list (loc * Z) := (λ i, (r, i)) <$> seqZ 0 n.

(** Every loop of [ops.c] writes its destination buffer at consecutive
    offsets, starting at 0.  [fill s0 r img0 vals] is the state reached from
    [s0] once the samples [vals] have been stored into the first
    [length vals] cells of image [r], whose contents in [s0] were [img0]. *)
Definition fill (s0 : state F) (r : loc) (img0 : heman_image F) (vals : list F) : state F :=
  mk_state
    (<[r := set_data img0 ((Some <$> vals) ++ drop (length vals) (data img0))]> (mem s0))
    (wlog s0 ++ ((λ i, (r, i)) <$> seqZ 0 (Z.of_nat (length vals)))).

(** The state right after [heman_image_create w h nb]. *)
Definition created (s : state F) (w h nb : Z) : state F :=
  mk_state (<[fresh (dom (mem s)) := blank w h nb]> (mem s)) (wlog s).

(** Row [y] of a single-band image. *)
Definition row (img : heman_image F) (y : Z) : list F :=
  take (Z.to_nat (width img)) (drop (Z.to_nat (y * width img)) (samples img)).

(** Two images of identical width, height and band count. *)
Definition same_shape (a b : heman_image F) : Prop :=
  nbands a = nbands b ∧ width a = width b ∧ height a = height b.

(** An array of [count] pointers to well-formed images of one shape,
    [imgs] being the images they point to. *)
Definition tiles (s : state F) (images : list loc) (imgs : list (heman_image F))
    (w h nb : Z) : Prop :=
  Forall2 (λ p im, mem s !! p = Some im) images imgs ∧
  Forall (λ im, wf_image im ∧ width im = w ∧ height im = h ∧ nbands im = nb) imgs.

End Vocabulary.

Section Values.
Context {F : Type} `{Scalar F}.

(** The sample [heman_ops_sweep] stores for row [y]: the sum of the row,
    accumulated from 0 left to right, times the reciprocal of the width. *)
Definition sweep_value (img : heman_image F) (y : Z) : F :=
  fmul (foldl fadd (of_int 0) (row img y)) (fdiv (of_int 1) (of_int (width img))).

(** The sample at an offset of a well-formed image (0 when there is none). *)
Definition get (img : heman_image F) (off : Z) : F :=
  default (of_int 0) (sample img off).

(** Band [b] of pixel [(x, y)] of a well-formed image. *)
Definition get_texel (img : heman_image F) (x y b : Z) : F :=
  get img ((y * width img + x) * nbands img + b).

(** The sample [heman_ops_step] stores at offset [i]. *)
Definition step_value (img : heman_image F) (threshold : F) (i : Z) : F :=
  if fge (get img i) threshold then of_int 1 else of_int 0.

(** The sample [heman_ops_normalize_f32] stores at offset [i]. *)
Definition normalize_value (img : heman_image F) (minv maxv : F) (i : Z) : F :=
  CLAMP (fmul (fsub (get img i) minv) (fdiv (of_int 1) (fsub maxv minv)))
        (of_int 0) (of_int 1).

(** The sample [heman_ops_laplacian] stores for pixel [(x, y)]. *)
Definition laplacian_pixel (img : heman_image F) (x y : Z) : F :=
  let p := get_texel img x y 0 in
  let px := get_texel img (Z.min (x + 1) (width img - 1)) y 0 in
  let py := get_texel img x (Z.min (y + 1) (height img - 1)) 0 in
  fadd (fmul (fsub p px) (fsub p px)) (fmul (fsub p py) (fsub p py)).

Definition laplacian_value (img : heman_image F) (off : Z) : F :=
  laplacian_pixel img (off `mod` width img) (off `div` width img).

(** The sample [heman_ops_accumulate] stores at offset [i] of [dst]. *)
Definition accumulate_value (d src : heman_image F) (i : Z) : F :=
  fadd (get d i) (get src i).

(** The contents of [dst] after [heman_ops_accumulate]: the loop runs
    over [height * width] samples; the samples behind them stay. *)
Definition accumulated (d src : heman_image F) : heman_image F :=
  set_data d
    ((Some <$> (accumulate_value d src <$> seqZ 0 (width d * height d)))
     ++ drop (Z.to_nat (width d * height d)) (data d)).

(** The eight samples [sobel_samples] reads around pixel [(x, y)] of
    the grayscale image [g]. *)
Definition sobel_taps (g : heman_image F) (w h x y : Z) : F * F * F * F * F * F * F * F :=
  let xm1 := Z.max (x - 1) 0 in
  let xp1 := Z.min (x + 1) (w - 1) in
  let ym1 := Z.max (y - 1) 0 in
  let yp1 := Z.min (y + 1) (h - 1) in
  (get_texel g xm1 ym1 0, get_texel g x ym1 0, get_texel g xp1 ym1 0,
   get_texel g xm1 0 0, get_texel g xp1 0 0,
   get_texel g xm1 yp1 0, get_texel g x yp1 0, get_texel g xp1 yp1 0).

(** The luminance [heman_color_to_grayscale] stores for pixel [i]. *)
Definition gray_value `{Luminance F} (img : heman_image F) (i : Z) : F :=
  luma (get img (3 * i)) (get img (3 * i + 1)) (get img (3 * i + 2)).

(** The transient grayscale image of [heman_ops_sobel]. *)
Definition gray_image `{Luminance F} (img : heman_image F) : heman_image F :=
  img_of (width img) (height img) 1
    (gray_value img <$> seqZ 0 (width img * height img)).

(** Whether [heman_ops_sobel] classifies pixel [(x, y)] as an edge: the
    squared gradient magnitude it computes there exceeds [1e-5]. *)
Definition is_edge_pixel `{Luminance F} (img : heman_image F) (x y : Z) : bool :=
  sobel_edge_test (sobel_taps (gray_image img) (width img) (height img) x y).

(** The interpolation factor [is_edge] for pixel [(x, y)]. *)
Definition edge_flag `{Luminance F} (img : heman_image F) (x y : Z) : F :=
  sobel_is_edge (sobel_taps (gray_image img) (width img) (height img) x y).

(** Band [b] of the pixel [heman_ops_sobel] stores at [(x, y)]. *)
Definition sobel_pixel `{Luminance F} (img : heman_image F) (x y b : Z) : F :=
  let c := get_texel img x y b in
  fadd c (fmul (edge_flag img x y) (fsub (of_int 0) c)).

Definition sobel_value `{Luminance F} (img : heman_image F) (off : Z) : F :=
  sobel_pixel img ((off `div` 3) `mod` width img) ((off `div` 3) `div` width img)
    (off `mod` 3).

(** The sample [heman_ops_stitch_horizontal] stores at offset [off] of a
    result of [count] tiles of [w] columns and [nb] bands: band [off mod nb]
    of pixel [(x, y)] of tile [t], where [off / nb = y * (w * count) + t * w + x]. *)
Definition stitch_horizontal_value (imgs : list (heman_image F)) (w nb count : Z)
    (off : Z) : F :=
  let pix := off `div` nb in
  let col := pix `mod` (w * count) in
  match imgs !! Z.to_nat (col `div` w) with
  | Some im => get_texel im (col `mod` w) (pix `div` (w * count)) (off `mod` nb)
  | None => of_int 0
  end.

(** The sample [heman_ops_stitch_vertical] stores at offset [off]:
    sample [off mod size] of tile [off / size]. *)
Definition stitch_vertical_value (imgs : list (heman_image F)) (size : Z) (off : Z) : F :=
  match imgs !! Z.to_nat (off `div` size) with
  | Some im => get im (off `mod` size)
  | None => of_int 0
  end.

End Values.

(** ** Operator calls and their footprint *)

Section Calls.
Context {F : Type} `{Scalar F} `{Luminance F}.

(** A call of one of the eight operators. *)
Inductive call :=
  | Step (hmap : loc) (threshold : F)
  | Sweep (hmap : loc)
  | StitchHorizontal (images : list loc) (count : Z)
  | StitchVertical (images : list loc) (count : Z)
  | Normalize (source : loc) (minv maxv : F)
  | Laplacian (heightmap : loc)
  | Accumulate (dst src : loc)
  | Sobel (img : loc) (edge_color : heman_color F).

(** Running a call; the result is the returned image, if the operator
    returns one. *)
Definition run_call (c : call) : M F (option loc) :=
  match c with
  | Step hmap threshold => r ← heman_ops_step hmap threshold; mret (Some r)
  | Sweep hmap => r ← heman_ops_sweep hmap; mret (Some r)
  | StitchHorizontal images count =>
      r ← heman_ops_stitch_horizontal images count; mret (Some r)
  | StitchVertical images count =>
      r ← heman_ops_stitch_vertical images count; mret (Some r)
  | Normalize source minv maxv =>
      r ← heman_ops_normalize_f32 source minv maxv; mret (Some r)
  | Laplacian heightmap => r ← heman_ops_laplacian heightmap; mret (Some r)
  | Accumulate dst src => heman_ops_accumulate dst src;; mret None
  | Sobel img edge_color => r ← heman_ops_sobel img edge_color; mret (Some r)
  end.

(** The preconditions of a call: its arguments point to well-formed images
    that pass the operator's assertions, and the products the operator forms
    as [int] are in range: [height * width] in step (line 10), accumulate
    (147), laplacian ([y * width], 129) and sobel ([y * width], 170);
    [height * width * nbands] in normalize (109); [width * count], [tile *
    width] and the sample offsets of the result in the horizontal stitch
    (68, 73); [height * count] and [width * height * nbands] in the vertical
    stitch (91, 92).  Sweep forms no product; its loop counters run up to
    [width] and [height]. *)
Definition valid_call (s : state F) (c : call) : Prop :=
  match c with
  | Step p _ | Laplacian p =>
      ∃ h, mem s !! p = Some h ∧ wf_image h ∧ nbands h = 1 ∧
           in_int (width h * height h)
  | Sweep p =>
      ∃ h, mem s !! p = Some h ∧ wf_image h ∧ nbands h = 1 ∧
           in_int (width h) ∧ in_int (height h)
  | StitchHorizontal images count =>
      ∃ imgs w h nb, tiles s images imgs w h nb ∧
                     count = Z.of_nat (length images) ∧ 0 < count ∧
                     in_int (w * count * h * nb)
  | StitchVertical images count =>
      ∃ imgs w h nb, tiles s images imgs w h nb ∧
                     count = Z.of_nat (length images) ∧ 0 < count ∧
                     in_int (h * count) ∧ in_int (w * h * nb)
  | Normalize p _ _ =>
      ∃ h, mem s !! p = Some h ∧ wf_image h ∧
           in_int (width h * height h * nbands h)
  | Accumulate dst src =>
      ∃ d si, mem s !! dst = Some d ∧ mem s !! src = Some si ∧
              wf_image d ∧ wf_image si ∧ same_shape d si ∧
              in_int (width d * height d)
  | Sobel p _ =>
      ∃ im, mem s !! p = Some im ∧ wf_image im ∧ nbands im = 3 ∧
            in_int (width im * height im)
  end.

(** The one image a call may mutate. *)
Definition mutated (c : call) : option loc :=
  match c with
  | Accumulate dst _ => Some dst
  | _ => None
  end.


End Calls.

(** ** Partial correctness and the footprint invariant *)

Section HoareDefs.
Context {F : Type}.


(** A program that never changes the state. *)
Definition stateless {A} (m : M F A) : Prop :=
  ∀ s a s', m s = Some (a, s') → s' = s.

End HoareDefs.

(** ** Binary32, the sample arithmetic of the program *)

(** The samples are the binary32 values of [SpecFloat] (precision 24,
    [emax] 128); [double] values are its binary64 values (precision 53,
    [emax] 1024). *)
Definition f32 : Type := spec_float.
Definition f64 : Type := spec_float.

(** The promotion of a [float] to [double], which is exact. *)
Definition f64_of_f32 (x : f32) : f64 :=
  match x with
  | S754_finite s m e => binary_round 53 1024 s m e
  | _ => x
  end.

(** The conversion of a [double] to [float], rounded to nearest-even. *)
Definition f32_of_f64 (x : f64) : f32 :=
  match x with
  | S754_finite s m e => binary_round 24 128 s m e
  | _ => x
  end.

Global Instance f32_scalar : Scalar f32 := {|
  of_int z := binary_normalize 24 128 z 0 false;
  fadd := SFadd 24 128;
  fsub := SFsub 24 128;
  fmul := SFmul 24 128;
  fdiv := SFdiv 24 128;
  fgt a b := SFltb b a;
  fge a b := SFleb b a;
  double := f64;
  to_double := f64_of_f32;
  of_double := f32_of_f64;
  d_of_int z := binary_normalize 53 1024 z 0 false;
  dadd := SFadd 53 1024;
  dsub := SFsub 53 1024;
  dmul := SFmul 53 1024;
  ddiv := SFdiv 53 1024;
  dgt a b := SFltb b a
|}.

(** The finite binary32 values: the zeros, and the numbers whose mantissa
    and exponent are those of a binary32 value. *)
Global Instance f32_finite : Finite f32 := λ x,
  match x with
  | S754_zero _ => True
  | S754_finite _ m e => bounded 24 128 m e = true
  | _ => False
  end.

(** The luminance weights 0.299, 0.587 and 0.114 as [double] constants; the
    weighted sum is formed in [double] and converted to [float]. *)
Global Instance f32_luma : Luminance f32 := λ r g b,
  let weight (n : Z) : f64 := ddiv (d_of_int n) (d_of_int 1000) in
  of_double (dadd (dadd (dmul (weight 299) (to_double r)) (dmul (weight 587) (to_double g)))
                  (dmul (weight 114) (to_double b))).

Definition f32_of_Z (z : Z) : f32 := of_int z.
Definition f32_infinity : f32 := S754_infinity false.
Definition f32_nan : f32 := S754_nan.

(** ** The rationals, for worked examples

    The rationals compute without rounding; their division by zero gives 0,
    where the program's gives an infinity or a NaN, and no example below
    divides by zero. *)

Global Instance Qc_scalar : Scalar Qc := {|
  of_int := Qc_of_Z;
  fadd := Qcplus;
  fsub := Qcminus;
  fmul := Qcmult;
  fdiv := Qcdiv;
  fgt a b := bool_decide (b < a)%Qc;
  fge a b := bool_decide (b ≤ a)%Qc;
  double := Qc;
  to_double x := x;
  of_double x := x;
  d_of_int := Qc_of_Z;
  dadd := Qcplus;
  dsub := Qcminus;
  dmul := Qcmult;
  ddiv := Qcdiv;
  dgt a b := bool_decide (b < a)%Qc
|}.

Global Instance Qc_finite : Finite Qc := λ _, True.

(** The usual luminance weights 0.299, 0.587 and 0.114, as exact fractions. *)
Global Instance Qc_luma : Luminance Qc := λ r g b,
  (Qc_of_Z 299 / Qc_of_Z 1000 * r + Qc_of_Z 587 / Qc_of_Z 1000 * g
   + Qc_of_Z 114 / Qc_of_Z 1000 * b)%Qc.

(** ** Concrete inputs *)

(** A single-band image 2 wide and 3 high. *)
Definition sweep_image : heman_image Qc :=
  img_of 2 3 1 (Qc_of_Z <$> [1; 3; 5; 7; 2; 4]).

Definition sweep_input : state Qc := mk_state {[ 1%positive := sweep_image ]} [].

(** Two single-band 1 x 1 tiles. *)
Definition tiles_input : state Qc :=
  mk_state {[ 1%positive := img_of 1 1 1 [Qc_of_Z 1];
              2%positive := img_of 1 1 1 [Qc_of_Z 2] ]} [].

(** A 3-band image 2 wide and 1 high: a white pixel next to a black one. *)
Definition sobel_image : heman_image Qc :=
  img_of 2 1 3 (Qc_of_Z <$> [1; 1; 1; 0; 0; 0]).

Definition sobel_input : state Qc := mk_state {[ 1%positive := sobel_image ]} [].

(** Red, as an edge colour. *)
Definition red : heman_color Qc := (Qc_of_Z 1, Qc_of_Z 0, Qc_of_Z 0).

(** The samples of the image an operator returns, as fractions. *)
Definition returned (run : option (loc * state Qc)) : option (list Q) :=
  '(r, s) ← run; img ← mem s !! r; Some (this <$> samples img).

(** The inputs of the examples of the specification. *)
Definition step_example : state Qc :=
  mk_state {[ 1%positive := img_of 2 2 1 (Q2Qc <$> [2 # 10; 6 # 10; 5 # 10; 9 # 10]%Q) ]} [].

Definition sweep_example : state Qc :=
  mk_state {[ 1%positive := img_of 2 2 1 (Qc_of_Z <$> [1; 3; 5; 7]) ]} [].

(** A 2 x 1 image of two bands. *)
Definition two_band_image : heman_image Qc := img_of 2 1 2 (Qc_of_Z <$> [1; 2; 3; 4]).

Definition two_band_input : state Qc :=
  mk_state {[ 1%positive := two_band_image; 2%positive := sweep_image ]} [].

(** *** Binary32 inputs *)

(** A single-band row of 41 ones. *)
Definition ones_image : heman_image f32 := img_of 41 1 1 (replicate 41 (f32_of_Z 1)).

Definition ones_input : state f32 := mk_state {[ 1%positive := ones_image ]} [].



(** Three heightmaps: a slope 2 wide and 2 high; a column of two samples,
    an infinite one above a zero; and a level 2 x 2 heightmap. *)
Definition hill_image : heman_image f32 := img_of 2 2 1 (f32_of_Z <$> [1; 3; 0; 2]).

Definition cliff_image : heman_image f32 := img_of 1 2 1 [f32_infinity; f32_of_Z 0].

Definition plain_image : heman_image f32 := img_of 2 2 1 (f32_of_Z <$> [5; 5; 5; 5]).

Definition heights_input : state f32 :=
  mk_state {[ 1%positive := hill_image; 2%positive := cliff_image;
              3%positive := plain_image ]} [].

(** A destination holding 2^24, two sources holding 1, and the elementwise
    sum of the sources. *)
Definition big_dst : heman_image f32 := img_of 1 1 1 [f32_of_Z 16777216].
Definition big_a : heman_image f32 := img_of 1 1 1 [f32_of_Z 1].
Definition big_b : heman_image f32 := img_of 1 1 1 [f32_of_Z 1].
Definition big_sum : heman_image f32 :=
  img_of 1 1 1 (zip_with fadd (samples big_a) (samples big_b)).

Definition big_input : state f32 :=
  mk_state {[ 1%positive := big_dst; 2%positive := big_a;
              3%positive := big_b; 4%positive := big_sum ]} [].

(** A 3 x 3 colour image: a white column, a black column with an infinite
    pixel in its middle, and a black column. *)
Definition edge_image : heman_image f32 :=
  let w := f32_of_Z 1 in
  let k := f32_of_Z 0 in
  let i := f32_infinity in
  img_of 3 3 3 [w; w; w;  k; k; k;  k; k; k;
                w; w; w;  i; i; i;  k; k; k;
                w; w; w;  k; k; k;  k; k; k].

Definition edge_input : state f32 := mk_state {[ 1%positive := edge_image ]} [].

(** Red and blue as binary32 colours. *)
Definition f32_red : heman_color f32 := (f32_of_Z 1, f32_of_Z 0, f32_of_Z 0).
Definition f32_blue : heman_color f32 := (f32_of_Z 0, f32_of_Z 0, f32_of_Z 1).

(** ** Reasoning about programs *)

(** Closed instances of [in_int]. *)
Ltac int_range := unfold in_int, INT_MAX; simpl; lia.

Section Monad.
Context {F : Type}.
Implicit Types (s : state F) (p r : loc) (img : heman_image F).

Lemma bind_some {A B} (m : M F A) (k : A → M F B) s a s' :
  m s = Some (a, s') → (m ≫= k) s = k a s'.
Proof. intros E. unfold mbind, M_bind. by rewrite E. Qed.

Lemma ret_run {A} (a : A) s : (mret a : M F A) s = Some (a, s).
Proof. reflexivity. Qed.

Lemma assert_true s (P : Prop) `{Decision P} :
  P → assert (F := F) (bool_decide P) s = Some ((), s).
Proof. intros HP. unfold assert. by rewrite bool_decide_eq_true_2. Qed.

Lemma deref_some p s img : mem s !! p = Some img → deref p s = Some (img, s).
Proof. intros E. unfold deref. by rewrite E. Qed.

Lemma load_peek p off s v : peek s p off = Some v → load p off s = Some (v, s).
Proof.
  unfold peek, load. destruct (mem s !! p) as [img|]; simpl; [|done].
  destruct (cell (data img) off) as [c|]; simpl; [|done].
  by intros ->.
Qed.

Lemma texel_some p x y s img :
  mem s !! p = Some img →
  heman_image_texel p x y s = Some ((y * width img + x) * nbands img, s).
Proof. intros E. unfold heman_image_texel. by rewrite (bind_some _ _ _ _ _ (deref_some _ _ _ E)). Qed.

Lemma index_some (images : list loc) i p s :
  0 ≤ i → images !! Z.to_nat i = Some p → index images i s = Some (p, s).
Proof. intros Hi E. unfold index. rewrite bool_decide_eq_true_2 by done. by rewrite E. Qed.

Lemma cell_fmap_Some (l : list F) off :
  0 ≤ off → cell (Some <$> l) off = Some <$> (l !! Z.to_nat off).
Proof.
  intros Hoff. unfold cell. rewrite bool_decide_eq_true_2 by lia.
  by rewrite list_lookup_fmap.
Qed.

(** *** Loops *)

Lemma fold_from_S {A} i n (body : Z → A → M F A) a :
  fold_from i (S n) body a = (a' ← body i a; fold_from (i + 1) n body a').
Proof. reflexivity. Qed.

(** A loop whose body keeps an invariant runs to completion and
    establishes the invariant at the upper bound. *)
Lemma fold_from_inv {A} (I : Z → A → state F → Prop) (body : Z → A → M F A) n :
  ∀ lo a s,
  I lo a s →
  (∀ i b t, lo ≤ i < lo + Z.of_nat n → I i b t →
     ∃ b' t', body i b t = Some (b', t') ∧ I (i + 1) b' t') →
  ∃ a' s', fold_from lo n body a s = Some (a', s') ∧ I (lo + Z.of_nat n) a' s'.
Proof.
  induction n as [|n IH]; intros lo a s H0 Hstep.
  - exists a, s. split; [done|]. by replace (lo + Z.of_nat 0) with lo by lia.
  - destruct (Hstep lo a s) as (b & t & Eb & Hb); [lia|done|].
    destruct (IH (lo + 1) b t) as (a' & s' & E & Ha'); [done| |].
    + intros i c u Hi. apply Hstep. lia.
    + exists a', s'. split.
      * rewrite fold_from_S. by rewrite (bind_some _ _ _ _ _ Eb).
      * by replace (lo + Z.of_nat (S n)) with (lo + 1 + Z.of_nat n) by lia.
Qed.

Lemma for_fold_inv {A} (I : Z → A → state F → Prop) lo hi (body : Z → A → M F A) a s :
  lo ≤ hi →
  I lo a s →
  (∀ i b t, lo ≤ i < hi → I i b t → ∃ b' t', body i b t = Some (b', t') ∧ I (i + 1) b' t') →
  ∃ a' s', for_fold lo hi body a s = Some (a', s') ∧ I hi a' s'.
Proof.
  intros Hle H0 Hstep. unfold for_fold.
  destruct (fold_from_inv I body (Z.to_nat (hi - lo)) lo a s) as (a' & s' & E & Ha');
    [done| |].
  - intros i b t Hi. apply Hstep. lia.
  - exists a', s'. split; [done|].
    by replace (lo + Z.of_nat (Z.to_nat (hi - lo))) with hi in Ha' by lia.
Qed.

Lemma for_range_inv (I : Z → state F → Prop) lo hi (body : Z → M F unit) s :
  lo ≤ hi →
  I lo s →
  (∀ i t, lo ≤ i < hi → I i t → ∃ t', body i t = Some ((), t') ∧ I (i + 1) t') →
  ∃ s', for_range lo hi body s = Some ((), s') ∧ I hi s'.
Proof.
  intros Hle H0 Hstep. unfold for_range.
  destruct (for_fold_inv (λ i _ t, I i t) lo hi (λ i _, body i) () s)
    as ([] & s' & E & Hs'); [done|done| |by exists s'].
  intros i [] t Hi Ht. destruct (Hstep i t Hi Ht) as (t' & E & Ht').
  by exists (), t'.
Qed.

End Monad.

(** *** Filling a buffer front to back *)

Section Fill.
Context {F : Type}.
Implicit Types (s : state F) (p r : loc) (img : heman_image F) (vals : list F).

Lemma fill_nil s0 r img0 : mem s0 !! r = Some img0 → fill s0 r img0 [] = s0.
Proof.
  intros E. destruct s0 as [m l]; simpl in *. unfold fill; simpl.
  rewrite drop_0, app_nil_r. f_equal.
  destruct img0; unfold set_data; simpl. by apply insert_id.
Qed.

Lemma mem_fill_eq s0 r img0 vals :
  mem (fill s0 r img0 vals) !! r
  = Some (set_data img0 ((Some <$> vals) ++ drop (length vals) (data img0))).
Proof. apply lookup_insert_eq. Qed.

Lemma mem_fill_ne s0 r img0 vals p :
  p ≠ r → mem (fill s0 r img0 vals) !! p = mem s0 !! p.
Proof. intros. by apply lookup_insert_ne. Qed.

Lemma peek_fill_ne s0 r img0 vals p off :
  p ≠ r → peek (fill s0 r img0 vals) p off = peek s0 p off.
Proof. intros. unfold peek. by rewrite mem_fill_ne. Qed.

(** Cells at and beyond the fill front still hold what they held. *)
Lemma peek_fill_old s0 r img0 vals off :
  mem s0 !! r = Some img0 → Z.of_nat (length vals) ≤ off →
  peek (fill s0 r img0 vals) r off = peek s0 r off.
Proof.
  intros E Hoff. unfold peek. rewrite mem_fill_eq, E. simpl.
  unfold cell. rewrite bool_decide_eq_true_2 by lia.
  rewrite lookup_app_r; rewrite length_fmap; [|lia].
  rewrite lookup_drop. do 2 f_equal. lia.
Qed.

Lemma store_fill s0 r img0 vals v :
  (length vals < length (data img0))%nat →
  store r (Z.of_nat (length vals)) v (fill s0 r img0 vals)
  = Some ((), fill s0 r img0 (vals ++ [v])).
Proof.
  intros Hlen. unfold store. rewrite mem_fill_eq. simpl.
  unfold cell. rewrite bool_decide_eq_true_2 by lia. rewrite Nat2Z.id.
  destruct (lookup_lt_is_Some_2 (data img0) (length vals) Hlen) as [c Ec].
  rewrite lookup_app_r; rewrite length_fmap; [|lia].
  rewrite lookup_drop, Nat.sub_diag, Nat.add_0_r, Ec. simpl.
  unfold fill. simpl. f_equal. f_equal. f_equal.
  - rewrite insert_insert_eq. f_equal. unfold set_data. simpl. f_equal.
    rewrite insert_app_r_alt; rewrite length_fmap; [|lia].
    rewrite Nat.sub_diag, fmap_app, <- app_assoc. f_equal. simpl.
    rewrite length_app. simpl.
    rewrite (drop_S _ _ _ Ec). simpl. do 2 f_equal. lia.
  - rewrite <- app_assoc. f_equal. rewrite length_app. simpl.
    replace (Z.of_nat (length vals + 1)) with (Z.of_nat (length vals) + 1) by lia.
    rewrite seqZ_app by lia. rewrite fmap_app. simpl. f_equal.
Qed.

(** A loop each of whose iterations extends the fill by [k] samples of
    the table [g]. *)
Lemma for_range_fill_blocks s0 r img0 (g : Z → F) (body : Z → M F unit) base k lo hi :
  lo ≤ hi →
  (∀ j, lo ≤ j < hi →
     body j (fill s0 r img0 (g <$> seqZ 0 (base + (j - lo) * k)))
     = Some ((), fill s0 r img0 (g <$> seqZ 0 (base + (j - lo + 1) * k)))) →
  for_range lo hi body (fill s0 r img0 (g <$> seqZ 0 base))
  = Some ((), fill s0 r img0 (g <$> seqZ 0 (base + (hi - lo) * k))).
Proof.
  intros Hle Hbody.
  destruct (for_range_inv
              (λ j t, t = fill s0 r img0 (g <$> seqZ 0 (base + (j - lo) * k)))
              lo hi body (fill s0 r img0 (g <$> seqZ 0 base))) as (s' & E & ->);
    [done| | |done].
  - do 3 f_equal. lia.
  - intros j t Hj ->. eexists. split; [by apply Hbody|]. do 3 f_equal. lia.
Qed.

(** The same for a loop that starts on the untouched buffer and stores
    one sample per iteration. *)
Lemma for_range_fill1 s0 r img0 (g : Z → F) (body : Z → M F unit) n :
  0 ≤ n →
  mem s0 !! r = Some img0 →
  (∀ j, 0 ≤ j < n →
     body j (fill s0 r img0 (g <$> seqZ 0 j))
     = Some ((), fill s0 r img0 (g <$> seqZ 0 (j + 1)))) →
  for_range 0 n body s0 = Some ((), fill s0 r img0 (g <$> seqZ 0 n)).
Proof.
  intros Hn E Hbody. rewrite <- (fill_nil s0 r img0 E) at 1.
  change (@nil F) with (g <$> seqZ 0 0).
  rewrite (for_range_fill_blocks s0 r img0 g body 0 1 0 n Hn).
  - by replace (0 + (n - 0) * 1) with n by lia.
  - intros j Hj. replace (0 + (j - 0) * 1) with j by lia.
    replace (0 + (j - 0 + 1) * 1) with (j + 1) by lia. by apply Hbody.
Qed.

Lemma length_fmap_seqZ (g : Z → F) n : 0 ≤ n → Z.of_nat (length (g <$> seqZ 0 n)) = n.
Proof. intros. rewrite length_fmap, length_seqZ. lia. Qed.

(** Storing the next sample of the table [g] at the fill front. *)
Lemma store_fill_seq s0 r img0 (g : Z → F) off v :
  0 ≤ off < Z.of_nat (length (data img0)) →
  v = g off →
  store r off v (fill s0 r img0 (g <$> seqZ 0 off))
  = Some ((), fill s0 r img0 (g <$> seqZ 0 (off + 1))).
Proof.
  intros Hoff ->.
  rewrite <- (length_fmap_seqZ g off) at 1 by lia.
  rewrite store_fill by (rewrite length_fmap, length_seqZ; lia).
  rewrite seqZ_app by lia. by rewrite fmap_app.
Qed.

End Fill.

(** ** Well-formed images *)

Section Images.
Context {F : Type}.
Implicit Types (s : state F) (p r : loc) (img : heman_image F) (vals : list F).

Lemma data_samples img : Forall is_Some (data img) → data img = Some <$> samples img.
Proof.
  unfold samples. induction 1 as [|c d [v ->] _ IH]; [done|].
  simpl. by f_equal.
Qed.

Lemma samples_img_of w h nb (l : list F) : samples (img_of w h nb l) = l.
Proof.
  unfold samples, img_of. simpl. induction l as [|v l IH]; [done|].
  simpl. by f_equal.
Qed.

Lemma length_samples img :
  Forall is_Some (data img) → length (samples img) = length (data img).
Proof.
  intros Hi. rewrite <- (length_fmap Some (samples img)). by rewrite <- data_samples.
Qed.

Lemma sample_samples img off :
  Forall is_Some (data img) → 0 ≤ off → sample img off = samples img !! Z.to_nat off.
Proof.
  intros Hi Hoff. unfold sample. rewrite (data_samples img Hi), cell_fmap_Some by done.
  by destruct (samples img !! Z.to_nat off).
Qed.

Lemma peek_sample s p off img : mem s !! p = Some img → peek s p off = sample img off.
Proof. intros E. unfold peek. by rewrite E. Qed.

Lemma fresh_None s : mem s !! fresh (dom (mem s)) = None.
Proof. apply not_elem_of_dom, is_fresh. Qed.

Lemma fresh_ne s p img : mem s !! p = Some img → p ≠ fresh (dom (mem s)).
Proof. intros E ->. by rewrite fresh_None in E. Qed.

Lemma create_run w h nb s :
  heman_image_create w h nb s = Some (fresh (dom (mem s)), created s w h nb).
Proof. reflexivity. Qed.

Lemma mem_created_eq s w h nb :
  mem (created s w h nb) !! fresh (dom (mem s)) = Some (blank w h nb).
Proof. apply lookup_insert_eq. Qed.

Lemma mem_created_ne s w h nb p img :
  mem s !! p = Some img → mem (created s w h nb) !! p = Some img.
Proof.
  intros E. unfold created. simpl. rewrite lookup_insert_ne; [done|].
  intros <-. by rewrite fresh_None in E.
Qed.

(** A created image whose buffer has been filled completely. *)
Lemma fill_create s w h nb vals :
  let r := fresh (dom (mem s)) in
  Z.of_nat (length vals) = w * h * nb →
  fill (created s w h nb) r (blank w h nb) vals
  = mk_state (<[r := img_of w h nb vals]> (mem s)) (wlog s ++ fill_log r (w * h * nb)).
Proof.
  intros r Hlen. unfold fill, fill_log, created. simpl. rewrite Hlen. f_equal.
  rewrite insert_insert_eq. f_equal. unfold set_data, img_of. simpl. f_equal.
  rewrite drop_ge, app_nil_r; [done|]. rewrite length_replicate. lia.
Qed.

End Images.

(** ** What each operator computes *)

Section Runs.
Context {F : Type} `{Scalar F} `{Luminance F}.
Implicit Types (s : state F) (p r : loc) (img : heman_image F) (vals : list F).

Lemma load_sample s p img off v :
  mem s !! p = Some img → sample img off = Some v → load p off s = Some (v, s).
Proof. intros E Hv. apply load_peek. by rewrite (peek_sample _ _ _ _ E). Qed.

Lemma sample_wf img off :
  wf_image img → 0 ≤ off < width img * height img * nbands img →
  ∃ v, sample img off = Some v ∧ samples img !! Z.to_nat off = Some v.
Proof.
  intros (_ & _ & _ & Hlen & Hi) Hoff.
  rewrite sample_samples by (done || lia).
  destruct (lookup_lt_is_Some_2 (samples img) (Z.to_nat off)) as [v Ev]; [|by exists v].
  rewrite length_samples by done. lia.
Qed.

Lemma get_sample img off :
  wf_image img → 0 ≤ off < width img * height img * nbands img →
  sample img off = Some (get img off).
Proof.
  intros Hwf Hoff. destruct (sample_wf img off Hwf Hoff) as (v & Ev & _).
  unfold get. by rewrite Ev.
Qed.

Lemma load_get s p img off :
  mem s !! p = Some img → wf_image img →
  0 ≤ off < width img * height img * nbands img →
  load p off s = Some (get img off, s).
Proof. intros E Hwf Hoff. apply (load_sample _ _ _ _ _ E). by apply get_sample. Qed.

(** Reading pixel [(x, y)] of a single-band image through
    [heman_image_texel]. *)
Lemma load_texel s p img x y :
  mem s !! p = Some img → wf_image img → nbands img = 1 →
  0 ≤ x < width img → 0 ≤ y < height img →
  (heman_image_texel p x y ≫= load p) s = Some (get_texel img x y 0, s).
Proof.
  intros E Hwf Hnb Hx Hy.
  rewrite (bind_some _ _ _ _ _ (texel_some _ _ _ _ _ E)).
  unfold get_texel. rewrite Z.add_0_r. apply load_get; [done..|]. nia.
Qed.

(** Inputs are still there, unchanged, while a fresh image is filled. *)
Lemma mem_fill_created s w h nb vals p img :
  mem s !! p = Some img →
  mem (fill (created s w h nb) (fresh (dom (mem s))) (blank w h nb) vals) !! p = Some img.
Proof.
  intros E. rewrite mem_fill_ne by (by apply fresh_ne with img). by apply mem_created_ne.
Qed.

(** *** [heman_ops_sweep] *)

(** The inner loop of [heman_ops_sweep] adds up row [y], left to right. *)
Lemma sweep_row_sum hmap h s y :
  mem s !! hmap = Some h → wf_image h → nbands h = 1 → 0 ≤ y < height h →
  for_fold 0 (width h) (λ x acc,
      v ← load hmap (y * width h + x); mret (fadd acc v)) (of_int 0) s
  = Some (foldl fadd (of_int 0) (row h y), s).
Proof.
  intros E Hwf Hnb Hy. pose proof Hwf as (Hw & Hh & _ & Hlen & Hi).
  destruct (for_fold_inv
    (λ x acc t, t = s ∧ 0 ≤ x ≤ width h ∧
       acc = foldl fadd (of_int 0)
               (take (Z.to_nat x) (drop (Z.to_nat (y * width h)) (samples h))))
    0 (width h) (λ x acc, v ← load hmap (y * width h + x); mret (fadd acc v))
    (of_int 0) s) as (a & s' & Erun & -> & _ & ->); [lia|by split_and!; try lia| |done].
  intros x acc t Hx (-> & _ & ->).
  destruct (sample_wf h (y * width h + x) Hwf) as (v & Ev & Evs); [nia|].
  exists (fadd (foldl fadd (of_int 0)
            (take (Z.to_nat x) (drop (Z.to_nat (y * width h)) (samples h)))) v), s.
  split.
  - by rewrite (bind_some _ _ _ _ _ (load_sample _ _ _ _ _ E Ev)).
  - split_and!; [done|lia|lia|].
    replace (Z.to_nat (x + 1)) with (S (Z.to_nat x)) by lia.
    erewrite take_S_r.
    + by rewrite foldl_app.
    + rewrite lookup_drop, <- Evs. f_equal. nia.
Qed.

Lemma length_blank (w h nb : Z) :
  Z.of_nat (length (data (blank (F := F) w h nb))) = Z.max 0 (w * h * nb).
Proof. unfold blank. simpl. rewrite length_replicate. lia. Qed.

Lemma sweep_run hmap h s :
  mem s !! hmap = Some h → wf_image h → nbands h = 1 →
  let r := fresh (dom (mem s)) in
  heman_ops_sweep hmap s
  = Some (r, mk_state
               (<[r := img_of (height h) 1 1 (sweep_value h <$> seqZ 0 (height h))]> (mem s))
               (wlog s ++ fill_log r (height h))).
Proof.
  intros E Hwf Hnb r. pose proof Hwf as (Hw & Hh & _ & Hlen & Hi).
  unfold heman_ops_sweep.
  rewrite (bind_some _ _ _ _ _ (deref_some _ _ _ E)).
  rewrite (bind_some _ _ _ _ _ (assert_true _ _ Hnb)).
  rewrite (bind_some _ _ _ _ _ (create_run _ _ _ _)). fold r.
  erewrite bind_some; cycle 1.
  { apply (for_range_fill1 _ r (blank (height h) 1 1) (sweep_value h)); [lia|apply mem_created_eq|].
    intros y Hy.
    erewrite bind_some; cycle 1.
    { apply sweep_row_sum; [|done..]. by apply mem_fill_created. }
    apply store_fill_seq; [|done]. rewrite length_blank. lia. }
  rewrite ret_run. do 2 f_equal. subst r.
  rewrite fill_create by (rewrite length_fmap_seqZ; lia).
  by rewrite !Z.mul_1_r.
Qed.

(** *** [heman_ops_step] *)

Lemma step_run hmap threshold h s :
  mem s !! hmap = Some h → wf_image h → nbands h = 1 →
  let r := fresh (dom (mem s)) in
  heman_ops_step hmap threshold s
  = Some (r, mk_state
               (<[r := img_of (width h) (height h) 1
                         (step_value h threshold <$> seqZ 0 (width h * height h))]> (mem s))
               (wlog s ++ fill_log r (width h * height h))).
Proof.
  intros E Hwf Hnb r. pose proof Hwf as (Hw & Hh & _ & Hlen & Hi).
  unfold heman_ops_step.
  rewrite (bind_some _ _ _ _ _ (deref_some _ _ _ E)).
  rewrite (bind_some _ _ _ _ _ (assert_true _ _ Hnb)).
  rewrite (bind_some _ _ _ _ _ (create_run _ _ _ _)). fold r.
  erewrite bind_some; cycle 1.
  { apply (for_range_fill1 _ r (blank (width h) (height h) 1) (step_value h threshold));
      [nia|apply mem_created_eq|].
    intros i Hi'.
    erewrite bind_some; cycle 1.
    { apply (load_get _ _ h); [by apply mem_fill_created|done|nia]. }
    apply store_fill_seq; [|done]. rewrite length_blank. nia. }
  rewrite ret_run. do 2 f_equal. subst r.
  replace (height h * width h) with (width h * height h * 1) by lia.
  rewrite fill_create by (rewrite length_fmap_seqZ; nia).
  by rewrite !Z.mul_1_r.
Qed.

(** *** [heman_ops_normalize_f32] *)

Lemma normalize_run source minv maxv src s :
  mem s !! source = Some src → wf_image src →
  let r := fresh (dom (mem s)) in
  let n := width src * height src * nbands src in
  heman_ops_normalize_f32 source minv maxv s
  = Some (r, mk_state
               (<[r := img_of (width src) (height src) (nbands src)
                         (normalize_value src minv maxv <$> seqZ 0 n)]> (mem s))
               (wlog s ++ fill_log r n)).
Proof.
  intros E Hwf r n. pose proof Hwf as (Hw & Hh & Hb & Hlen & Hi).
  assert (Hn : 0 < n) by (subst n; nia).
  unfold heman_ops_normalize_f32.
  rewrite (bind_some _ _ _ _ _ (deref_some _ _ _ E)).
  rewrite (bind_some _ _ _ _ _ (create_run _ _ _ _)). fold r.
  replace (height src * width src * nbands src) with n by (subst n; lia).
  erewrite bind_some; cycle 1.
  { apply (for_range_fill1 _ r (blank (width src) (height src) (nbands src))
             (normalize_value src minv maxv)); [lia|apply mem_created_eq|].
    intros i Hi'.
    erewrite bind_some; cycle 1.
    { apply (load_get _ _ src); [by apply mem_fill_created|done|by subst n]. }
    apply store_fill_seq; [|done]. rewrite length_blank. subst n. lia. }
  rewrite ret_run. do 2 f_equal. subst r.
  by rewrite fill_create by (rewrite length_fmap_seqZ; subst n; lia).
Qed.

(** *** [heman_ops_laplacian] *)

Lemma laplacian_run heightmap hm s :
  mem s !! heightmap = Some hm → wf_image hm → nbands hm = 1 →
  let r := fresh (dom (mem s)) in
  heman_ops_laplacian heightmap s
  = Some (r, mk_state
               (<[r := img_of (width hm) (height hm) 1
                         (laplacian_value hm <$> seqZ 0 (width hm * height hm))]> (mem s))
               (wlog s ++ fill_log r (width hm * height hm))).
Proof.
  intros E Hwf Hnb r. pose proof Hwf as (Hw & Hh & _ & Hlen & Hi).
  unfold heman_ops_laplacian.
  rewrite (bind_some _ _ _ _ _ (deref_some _ _ _ E)).
  rewrite (bind_some _ _ _ _ _ (assert_true _ _ Hnb)).
  rewrite (bind_some _ _ _ _ _ (create_run _ _ _ _)). fold r.
  set (s1 := created s (width hm) (height hm) 1).
  set (b0 := blank (F := F) (width hm) (height hm) 1).
  erewrite bind_some; cycle 1.
  { rewrite <- (fill_nil s1 r b0) at 1 by apply mem_created_eq.
    change (@nil F) with (laplacian_value hm <$> seqZ 0 0).
    apply (for_range_fill_blocks s1 r b0 (laplacian_value hm) _ 0 (width hm) 0 (height hm));
      [lia|].
    intros y Hy. rewrite !Z.sub_0_r, !Z.add_0_l.
    replace ((y + 1) * width hm) with (y * width hm + (width hm - 0) * 1) by lia.
    apply (for_range_fill_blocks s1 r b0 (laplacian_value hm) _ (y * width hm) 1 0 (width hm));
      [lia|].
    intros x Hx. rewrite !Z.sub_0_r, !Z.mul_1_r.
    assert (Em : mem (fill s1 r b0 (laplacian_value hm <$> seqZ 0 (y * width hm + x)))
                 !! heightmap = Some hm) by (by apply mem_fill_created).
    rewrite (bind_some _ _ _ _ _ (load_texel _ _ _ x y Em Hwf Hnb ltac:(lia) ltac:(lia))).
    rewrite (bind_some _ _ _ _ _
               (load_texel _ _ _ (Z.min (x + 1) (width hm - 1)) y Em Hwf Hnb
                  ltac:(lia) ltac:(lia))).
    rewrite (bind_some _ _ _ _ _
               (load_texel _ _ _ x (Z.min (y + 1) (height hm - 1)) Em Hwf Hnb
                  ltac:(lia) ltac:(lia))).
    replace (y * width hm + (x + 1)) with (y * width hm + x + 1) by lia.
    apply store_fill_seq; [subst b0; rewrite length_blank; nia|].
    unfold laplacian_value, laplacian_pixel.
    replace ((y * width hm + x) `mod` width hm) with x
      by (rewrite Z.add_comm, Z.mod_add by lia; by rewrite Z.mod_small by lia).
    replace ((y * width hm + x) `div` width hm) with y
      by (rewrite Z.add_comm, Z.div_add by lia; rewrite Z.div_small by lia; lia).
    done. }
  rewrite ret_run. do 2 f_equal. subst r s1 b0.
  rewrite !Z.sub_0_r, Z.add_0_l.
  replace (height hm * width hm) with (width hm * height hm * 1) by lia.
  rewrite fill_create by (rewrite length_fmap_seqZ; nia).
  by rewrite !Z.mul_1_r.
Qed.

(** *** [heman_ops_accumulate] *)

(** Reading any image, the one being filled included, at or beyond the
    fill front. *)
Lemma load_fill_old s0 r img0 vals p img off :
  mem s0 !! r = Some img0 → mem s0 !! p = Some img → wf_image img →
  0 ≤ off < width img * height img * nbands img →
  Z.of_nat (length vals) ≤ off →
  load p off (fill s0 r img0 vals) = Some (get img off, fill s0 r img0 vals).
Proof.
  intros Er Ep Hwf Hoff Hfront. apply load_peek.
  destruct (decide (p = r)) as [->|Hne].
  - rewrite peek_fill_old by done. rewrite (peek_sample _ _ _ _ Ep). by apply get_sample.
  - rewrite peek_fill_ne by done. rewrite (peek_sample _ _ _ _ Ep). by apply get_sample.
Qed.

Lemma accumulate_run dst src d si s :
  mem s !! dst = Some d → mem s !! src = Some si →
  wf_image d → wf_image si →
  nbands d = nbands si → width d = width si → height d = height si →
  heman_ops_accumulate dst src s
  = Some ((), fill s dst d (accumulate_value d si <$> seqZ 0 (width d * height d))).
Proof.
  intros Ed Es Hwd Hws Hnb Hw Hh. pose proof Hwd as (Hw0 & Hh0 & Hb0 & Hlen & Hi).
  unfold heman_ops_accumulate.
  rewrite (bind_some _ _ _ _ _ (deref_some _ _ _ Ed)).
  rewrite (bind_some _ _ _ _ _ (deref_some _ _ _ Es)).
  rewrite (bind_some _ _ _ _ _ (assert_true _ _ Hnb)).
  rewrite (bind_some _ _ _ _ _ (assert_true _ _ Hw)).
  rewrite (bind_some _ _ _ _ _ (assert_true _ _ Hh)).
  replace (height d * width d) with (width d * height d) by lia.
  apply (for_range_fill1 s dst d (accumulate_value d si)); [nia|done|].
  intros i Hi'.
  erewrite bind_some; cycle 1.
  { apply (load_fill_old _ _ _ _ _ si); [done..| |rewrite length_fmap_seqZ; lia].
    rewrite <- Hw, <- Hh, <- Hnb. nia. }
  erewrite bind_some; cycle 1.
  { apply (load_fill_old _ _ _ _ _ d); [done..| |rewrite length_fmap_seqZ; lia]. nia. }
  apply store_fill_seq; [|done]. nia.
Qed.

(** *** [heman_color_to_grayscale] and [heman_ops_sobel] *)

Lemma grayscale_run p img s :
  mem s !! p = Some img → wf_image img → nbands img = 3 →
  let g := fresh (dom (mem s)) in
  heman_color_to_grayscale p s
  = Some (g, mk_state (<[g := gray_image img]> (mem s))
                      (wlog s ++ fill_log g (width img * height img))).
Proof.
  intros E Hwf Hnb g. pose proof Hwf as (Hw & Hh & _ & Hlen & Hi).
  unfold heman_color_to_grayscale.
  rewrite (bind_some _ _ _ _ _ (deref_some _ _ _ E)).
  rewrite (bind_some _ _ _ _ _ (assert_true _ _ Hnb)).
  rewrite (bind_some _ _ _ _ _ (create_run _ _ _ _)). fold g.
  erewrite bind_some; cycle 1.
  { apply (for_range_fill1 _ g (blank (width img) (height img) 1) (gray_value img));
      [nia|apply mem_created_eq|].
    intros i Hi'.
    erewrite bind_some; cycle 1.
    { apply (load_get _ _ img); [by apply mem_fill_created|done|nia]. }
    erewrite bind_some; cycle 1.
    { apply (load_get _ _ img); [by apply mem_fill_created|done|nia]. }
    erewrite bind_some; cycle 1.
    { apply (load_get _ _ img); [by apply mem_fill_created|done|nia]. }
    apply store_fill_seq; [|done]. rewrite length_blank. nia. }
  rewrite ret_run. do 2 f_equal. subst g. unfold gray_image.
  rewrite <- (Z.mul_1_r (width img * height img)) at 1 3.
  rewrite fill_create by (rewrite length_fmap_seqZ; nia).
  by rewrite !Z.mul_1_r.
Qed.

Lemma wf_gray_image img : wf_image img → wf_image (gray_image img).
Proof.
  intros (Hw & Hh & _ & _ & _). unfold wf_image, gray_image, img_of. simpl.
  split_and!; [done..| |].
  - rewrite length_fmap, length_fmap_seqZ; nia.
  - apply Forall_fmap, Forall_true. by eexists.
Qed.

(** The eight loads of [sobel_samples]. *)
Lemma sobel_samples_run gray g s x y :
  mem s !! gray = Some g → wf_image g → nbands g = 1 →
  0 ≤ x < width g → 0 ≤ y < height g →
  sobel_samples gray (width g) (height g) x y s
  = Some (sobel_taps g (width g) (height g) x y, s).
Proof.
  intros E Hwf Hnb Hx Hy. unfold sobel_samples, sobel_taps.
  do 8 (erewrite bind_some by (apply (load_texel _ _ g); [done..|lia|lia])).
  done.
Qed.

(** One [kmVec3Lerp] call at the fill front. *)
Lemma kmVec3Lerp_fill s0 r img0 (tab : Z → F) p img off v2 t :
  mem s0 !! p = Some img → p ≠ r → wf_image img →
  0 ≤ off → off + 2 < width img * height img * nbands img →
  off + 2 < Z.of_nat (length (data img0)) →
  (∀ b, 0 ≤ b < 3 →
     tab (off + b) = fadd (get img (off + b)) (fmul t (fsub v2 (get img (off + b))))) →
  kmVec3Lerp r off p off (v2, v2, v2) t (fill s0 r img0 (tab <$> seqZ 0 off))
  = Some ((), fill s0 r img0 (tab <$> seqZ 0 (off + 3))).
Proof.
  intros E Hne Hwf Hoff Hin Hout T. unfold kmVec3Lerp. simpl.
  pose proof (T 0 ltac:(lia)) as T0. rewrite Z.add_0_r in T0.
  pose proof (T 1 ltac:(lia)) as T1. pose proof (T 2 ltac:(lia)) as T2.
  assert (Em : ∀ vals, mem (fill s0 r img0 vals) !! p = Some img)
    by (intros; by rewrite mem_fill_ne).
  set (n := width img * height img * nbands img) in *.
  set (m := Z.of_nat (length (data img0))) in *.
  assert (R0 : 0 ≤ off < n) by lia. assert (R1 : 0 ≤ off + 1 < n) by lia.
  assert (R2 : 0 ≤ off + 2 < n) by lia.
  assert (W0 : 0 ≤ off < m) by lia. assert (W1 : 0 ≤ off + 1 < m) by lia.
  assert (W2 : 0 ≤ off + 2 < m) by lia.
  rewrite (bind_some _ _ _ _ _ (load_get _ _ _ off (Em _) Hwf R0)).
  rewrite (bind_some _ _ _ _ _ (store_fill_seq _ _ _ tab off _ W0 (eq_sym T0))).
  rewrite (bind_some _ _ _ _ _ (load_get _ _ _ (off + 1) (Em _) Hwf R1)).
  rewrite (bind_some _ _ _ _ _ (store_fill_seq _ _ _ tab (off + 1) _ W1 (eq_sym T1))).
  replace (off + 1 + 1) with (off + 2) by lia.
  rewrite (bind_some _ _ _ _ _ (load_get _ _ _ (off + 2) (Em _) Hwf R2)).
  rewrite (store_fill_seq _ _ _ tab (off + 2) _ W2 (eq_sym T2)).
  by replace (off + 2 + 1) with (off + 3) by lia.
Qed.

Lemma pixel_of_offset w x y b :
  0 < w → 0 ≤ x < w → 0 ≤ y → 0 ≤ b < 3 →
  let off := 3 * (y * w + x) + b in
  (off `div` 3) `mod` w = x ∧ (off `div` 3) `div` w = y ∧ off `mod` 3 = b.
Proof.
  intros Hw Hx Hy Hb off.
  assert (E3 : off `div` 3 = y * w + x).
  { subst off. symmetry. apply (Z.div_unique _ 3 _ b); lia. }
  assert (Eb : off `mod` 3 = b).
  { subst off. symmetry. apply (Z.mod_unique _ 3 (y * w + x) b); lia. }
  rewrite E3. split_and!; [|..|done].
  - symmetry. apply (Z.mod_unique _ w y x); lia.
  - symmetry. apply (Z.div_unique _ w y x); lia.
Qed.

Lemma sobel_value_at (im : heman_image F) x y b :
  nbands im = 3 → 0 < width im → 0 ≤ x < width im → 0 ≤ y → 0 ≤ b < 3 →
  let off := 3 * (y * width im + x) + b in
  sobel_value im off
  = fadd (get im off) (fmul (edge_flag im x y) (fsub (of_int 0) (get im off))).
Proof.
  intros Hnb Hw Hx Hy Hb off.
  destruct (pixel_of_offset (width im) x y b) as (Px & Py & Pb); [done..|].
  unfold sobel_value. fold off in Px, Py, Pb. rewrite Px, Py, Pb.
  unfold sobel_pixel, get_texel. rewrite Hnb.
  by replace ((y * width im + x) * 3 + b) with off by (subst off; lia).
Qed.

Lemma sobel_run (img : loc) edge_color (im : heman_image F) s :
  mem s !! img = Some im → wf_image im → nbands im = 3 →
  let w := width im in
  let h := height im in
  let r := fresh (dom (mem s)) in
  let g := fresh (dom (mem (created s w h 3))) in
  heman_ops_sobel img edge_color s
  = Some (r, mk_state
               (<[r := img_of w h 3 (sobel_value im <$> seqZ 0 (w * h * 3))]> (mem s))
               ((wlog s ++ fill_log g (w * h)) ++ fill_log r (w * h * 3))).
Proof.
  intros E Hwf Hnb w h r g. pose proof Hwf as (Hw & Hh & _ & Hlen & Hi).
  fold w h in Hw, Hh.
  unfold heman_ops_sobel.
  rewrite (bind_some _ _ _ _ _ (deref_some _ _ _ E)). fold w h.
  rewrite (bind_some _ _ _ _ _ (assert_true _ _ Hnb)).
  rewrite (bind_some _ _ _ _ _ (create_run _ _ _ _)). fold r.
  set (s1 := created s w h 3) in *.
  assert (E1 : mem s1 !! img = Some im) by (by apply mem_created_ne).
  assert (Er1 : mem s1 !! r = Some (blank w h 3)) by apply mem_created_eq.
  rewrite (bind_some _ _ _ _ _ (grayscale_run _ _ _ E1 Hwf Hnb)). fold w h g.
  set (s2 := mk_state (<[g := gray_image im]> (mem s1)) (wlog s1 ++ fill_log g (w * h))).
  assert (Hgr : g ≠ r) by (intros Heq; apply (fresh_ne s1 r _ Er1); by rewrite <- Heq).
  assert (Hgi : img ≠ r) by (by apply fresh_ne with im).
  assert (Hig : img ≠ g) by exact (fresh_ne s1 img im E1).
  assert (E2 : mem s2 !! img = Some im).
  { subst s2. simpl. by rewrite lookup_insert_ne. }
  assert (Er2 : mem s2 !! r = Some (blank w h 3)).
  { subst s2. simpl. by rewrite lookup_insert_ne. }
  assert (Eg2 : mem s2 !! g = Some (gray_image im)) by apply lookup_insert_eq.
  pose proof (wf_gray_image im Hwf) as Hwg.
  set (b0 := blank (F := F) w h 3) in *.
  erewrite bind_some; cycle 1.
  { rewrite <- (fill_nil s2 r b0 Er2) at 1.
    change (@nil F) with (sobel_value im <$> seqZ 0 0).
    apply (for_range_fill_blocks s2 r b0 (sobel_value im) _ 0 (3 * w) 0 h); [lia|].
    intros y Hy. rewrite !Z.sub_0_r, !Z.add_0_l.
    replace ((y + 1) * (3 * w)) with (y * (3 * w) + (w - 0) * 3) by lia.
    apply (for_range_fill_blocks s2 r b0 (sobel_value im) _ (y * (3 * w)) 3 0 w); [lia|].
    intros x Hx. rewrite !Z.sub_0_r.
    replace (y * (3 * w) + x * 3) with (3 * (y * w + x)) by lia.
    replace (y * (3 * w) + (x + 1) * 3) with (3 * (y * w + x) + 3) by lia.
    erewrite bind_some; cycle 1.
    { apply (sobel_samples_run _ (gray_image im)); [|done|done|simpl; lia|simpl; lia].
      by rewrite mem_fill_ne. }
    apply (kmVec3Lerp_fill s2 r b0 (sobel_value im) img im); [done..|lia| | |].
    - rewrite Hnb. fold w h. nia.
    - subst b0. rewrite length_blank. nia.
    - intros b Hb.
      assert (Hx' : 0 ≤ x < width im) by (fold w; lia). assert (Hy' : 0 ≤ y) by lia.
      exact (sobel_value_at im x y b Hnb Hw Hx' Hy' Hb). }
  rewrite !Z.sub_0_r, Z.add_0_l.
  erewrite bind_some; cycle 1.
  { unfold heman_image_destroy. by rewrite mem_fill_ne, Eg2 by done. }
  rewrite ret_run. do 2 f_equal. unfold fill. simpl.
  rewrite length_fmap_seqZ by nia.
  replace (h * (3 * w)) with (w * h * 3) by lia. f_equal.
  rewrite delete_insert_ne, delete_insert_eq by done.
  subst s1. unfold created. simpl. fold r.
  rewrite delete_insert_ne, insert_insert_eq by done.
  rewrite delete_id.
  - f_equal. unfold set_data, img_of, b0, blank. simpl. f_equal.
    rewrite drop_ge, app_nil_r; [done|].
    rewrite length_replicate, length_fmap, length_seqZ. lia.
  - pose proof (fresh_None (created s w h 3)) as Hg. fold g in Hg.
    unfold created in Hg. simpl in Hg. by rewrite lookup_insert_ne in Hg.
Qed.

(** *** [copy_row] and the stitch operators *)

Lemma copy_row_fill s0 r b0 (tab : Z → F) src im dstx y :
  mem s0 !! src = Some im → src ≠ r → wf_image im →
  nbands b0 = nbands im → 0 ≤ y < height im →
  let base := (y * width b0 + dstx) * nbands b0 in
  0 ≤ base →
  base + width im * nbands im ≤ Z.of_nat (length (data b0)) →
  (∀ x b, 0 ≤ x < width im → 0 ≤ b < nbands im →
     tab (base + x * nbands im + b) = get_texel im x y b) →
  copy_row src r dstx y (fill s0 r b0 (tab <$> seqZ 0 base))
  = Some ((), fill s0 r b0 (tab <$> seqZ 0 (base + width im * nbands im))).
Proof.
  intros E Hne Hwf Hnb Hy base Hbase Hroom Htab.
  pose proof Hwf as (Hw & Hh & Hb & Hlen & Hi).
  assert (Em : ∀ vals, mem (fill s0 r b0 vals) !! src = Some im)
    by (intros; by rewrite mem_fill_ne).
  unfold copy_row.
  rewrite (bind_some _ _ _ _ _ (deref_some _ _ _ (Em _))).
  case_bool_decide as Hone.
  - replace (base + width im * nbands im) with (base + (width im - 0) * 1)
      by (rewrite Hone; lia).
    apply (for_range_fill_blocks s0 r b0 tab _ base 1 0 (width im)); [lia|].
    intros x Hx. rewrite !Z.sub_0_r, !Z.mul_1_r.
    rewrite (bind_some _ _ _ _ _ (texel_some _ _ _ _ _ (Em _))).
    rewrite (bind_some _ _ _ _ _ (texel_some _ _ _ _ _ (mem_fill_eq _ _ _ _))).
    simpl. rewrite Hone, Hnb, Hone, !Z.mul_1_r.
    erewrite bind_some; cycle 1.
    { apply (load_get _ _ im); [done..|]. nia. }
    replace (y * width b0 + (dstx + x)) with (base + x)
      by (subst base; rewrite Hnb, Hone; lia).
    replace (base + (x + 1)) with (base + x + 1) by lia.
    apply store_fill_seq; [nia|].
    specialize (Htab x 0 ltac:(lia) ltac:(lia)).
    rewrite Hone, Z.mul_1_r, Z.add_0_r in Htab. rewrite Htab.
    unfold get_texel. by rewrite Hone, Z.mul_1_r, Z.add_0_r.
  - replace (base + width im * nbands im) with (base + (width im - 0) * nbands im) by lia.
    apply (for_range_fill_blocks s0 r b0 tab _ base (nbands im) 0 (width im)); [lia|].
    intros x Hx. rewrite !Z.sub_0_r.
    rewrite (bind_some _ _ _ _ _ (texel_some _ _ _ _ _ (Em _))).
    rewrite (bind_some _ _ _ _ _ (texel_some _ _ _ _ _ (mem_fill_eq _ _ _ _))).
    simpl.
    replace ((y * width b0 + (dstx + x)) * nbands b0) with (base + x * nbands im)
      by (subst base; rewrite Hnb; lia).
    replace (base + (x + 1) * nbands im)
      with (base + x * nbands im + (nbands im - 0) * 1) by lia.
    apply (for_range_fill_blocks s0 r b0 tab _ (base + x * nbands im) 1 0 (nbands im));
      [lia|].
    intros b Hb'. rewrite !Z.sub_0_r, !Z.mul_1_r.
    erewrite bind_some; cycle 1.
    { apply (load_get _ _ im); [done..|]. nia. }
    replace (base + x * nbands im + (b + 1)) with (base + x * nbands im + b + 1) by lia.
    apply store_fill_seq; [nia|].
    rewrite (Htab x b) by lia. done.
Qed.

Lemma tiles_lookup s images imgs w h nb i :
  tiles s images imgs w h nb → 0 ≤ i < Z.of_nat (length images) →
  ∃ p im, images !! Z.to_nat i = Some p ∧ imgs !! Z.to_nat i = Some im ∧
          mem s !! p = Some im ∧ wf_image im ∧
          width im = w ∧ height im = h ∧ nbands im = nb.
Proof.
  intros [H2 Hall] Hi.
  destruct (lookup_lt_is_Some_2 images (Z.to_nat i)) as [p Ep]; [lia|].
  destruct (Forall2_lookup_l _ _ _ _ _ H2 Ep) as (im & Eim & Em).
  exists p, im. split_and!; [done..| | | |];
    by destruct (Forall_lookup_1 _ _ _ _ Hall Eim) as (? & ? & ? & ?).
Qed.

Lemma assert_same_shape_run s images imgs w h nb count :
  tiles s images imgs w h nb → count = Z.of_nat (length images) → 0 < count →
  assert_same_shape images count w h nb s = Some ((), s).
Proof.
  intros Ht -> Hc. unfold assert_same_shape.
  destruct (for_range_inv (λ _ t, t = s) 1 (Z.of_nat (length images))
     (λ i, p ← index images i; hi ← deref p;
           assert (bool_decide (width hi = w));;
           assert (bool_decide (height hi = h));;
           assert (bool_decide (nbands hi = nb))) s) as (s' & E & ->); [lia|done| |done].
  intros i t Hi ->. exists s. split; [|done].
  destruct (tiles_lookup s images imgs w h nb i Ht) as (p & im & Ep & _ & Em & _ & Hw & Hh & Hb);
    [lia|].
  assert (Hi0 : 0 ≤ i) by lia.
  rewrite (bind_some _ _ _ _ _ (index_some _ _ _ _ Hi0 Ep)).
  rewrite (bind_some _ _ _ _ _ (deref_some _ _ _ Em)).
  rewrite (bind_some _ _ _ _ _ (assert_true _ _ Hw)).
  rewrite (bind_some _ _ _ _ _ (assert_true _ _ Hh)).
  by apply assert_true.
Qed.

Lemma stitch_offset w nb count tile x y b :
  0 < w → 0 < nb → 0 ≤ tile < count → 0 ≤ x < w → 0 ≤ y → 0 ≤ b < nb →
  let off := (y * (w * count) + tile * w) * nb + x * nb + b in
  let pix := off `div` nb in
  off `mod` nb = b ∧ pix `div` (w * count) = y ∧
  (pix `mod` (w * count)) `div` w = tile ∧ (pix `mod` (w * count)) `mod` w = x.
Proof.
  intros Hw Hnb Ht Hx Hy Hb off pix.
  assert (Epix : pix = y * (w * count) + (tile * w + x)).
  { subst pix off. symmetry. apply (Z.div_unique _ nb _ b); lia. }
  assert (Hcol : 0 ≤ tile * w + x < w * count) by nia.
  assert (Ecol : pix `mod` (w * count) = tile * w + x).
  { rewrite Epix. symmetry. apply (Z.mod_unique _ (w * count) y); lia. }
  split_and!.
  - subst off. symmetry.
    apply (Z.mod_unique _ nb (y * (w * count) + (tile * w + x))); lia.
  - rewrite Epix. symmetry. apply (Z.div_unique _ (w * count) _ (tile * w + x)); lia.
  - rewrite Ecol. symmetry. apply (Z.div_unique _ w _ x); lia.
  - rewrite Ecol. symmetry. apply (Z.mod_unique _ w tile); lia.
Qed.

Lemma stitch_horizontal_run s images imgs w h nb count :
  tiles s images imgs w h nb → count = Z.of_nat (length images) → 0 < count →
  let r := fresh (dom (mem s)) in
  let n := w * count * h * nb in
  heman_ops_stitch_horizontal images count s
  = Some (r, mk_state
               (<[r := img_of (w * count) h nb
                         (stitch_horizontal_value imgs w nb count <$> seqZ 0 n)]> (mem s))
               (wlog s ++ fill_log r n)).
Proof.
  intros Ht Hcount Hc r n. unfold heman_ops_stitch_horizontal.
  rewrite (bind_some _ _ _ _ _ (assert_true _ _ (Z.lt_gt _ _ Hc))).
  destruct (tiles_lookup s images imgs w h nb 0 Ht)
    as (i0 & h0 & Ei0 & _ & Em0 & Hwf0 & Hw0 & Hh0 & Hb0); [lia|].
  pose proof Hwf0 as (Hw & Hh & Hb & _ & _). rewrite Hw0 in Hw. rewrite Hh0 in Hh.
  rewrite Hb0 in Hb.
  rewrite (bind_some _ _ _ _ _ (index_some _ _ _ _ (Z.le_refl 0) Ei0)).
  rewrite (bind_some _ _ _ _ _ (deref_some _ _ _ Em0)).
  rewrite Hw0, Hh0, Hb0.
  rewrite (bind_some _ _ _ _ _ (assert_same_shape_run _ _ _ _ _ _ _ Ht Hcount Hc)).
  rewrite (bind_some _ _ _ _ _ (create_run _ _ _ _)). fold r.
  set (s1 := created s (w * count) h nb).
  set (b0 := blank (F := F) (w * count) h nb).
  set (tab := stitch_horizontal_value imgs w nb count).
  assert (Hlen0 : Z.of_nat (length (data b0)) = n)
    by (subst b0 n; rewrite length_blank; nia).
  erewrite bind_some; cycle 1.
  { rewrite <- (fill_nil s1 r b0) at 1 by apply mem_created_eq.
    change (@nil F) with (tab <$> seqZ 0 0).
    apply (for_range_fill_blocks s1 r b0 tab _ 0 (w * count * nb) 0 h); [lia|].
    intros y Hy. rewrite !Z.sub_0_r, !Z.add_0_l.
    replace ((y + 1) * (w * count * nb))
      with (y * (w * count * nb) + (count - 0) * (w * nb)) by lia.
    apply (for_range_fill_blocks s1 r b0 tab _ (y * (w * count * nb)) (w * nb) 0 count);
      [lia|].
    intros tile Htile. rewrite !Z.sub_0_r.
    destruct (tiles_lookup s images imgs w h nb tile Ht)
      as (p & im & Ep & Eim & Em & Hwf & Hwi & Hhi & Hbi); [lia|].
    assert (Ht0 : 0 ≤ tile) by lia.
    rewrite (bind_some _ _ _ _ _ (index_some _ _ _ _ Ht0 Ep)).
    assert (Ebase : y * (w * count * nb) + tile * (w * nb)
                    = (y * width b0 + tile * w) * nbands b0) by (simpl; lia).
    replace (y * (w * count * nb) + (tile + 1) * (w * nb))
      with ((y * width b0 + tile * w) * nbands b0 + width im * nbands im)
      by (simpl; rewrite Hwi, Hbi; lia).
    rewrite Ebase.
    apply copy_row_fill; [by apply mem_created_ne|by apply fresh_ne with im|done|
                          by rewrite Hbi|lia|simpl; nia| |].
    - rewrite Hlen0, Hwi, Hbi. subst n. simpl.
      assert (H1 : tile * w + w ≤ count * w) by nia.
      assert (H2 : y * (w * count) ≤ (h - 1) * (w * count))
        by (apply Z.mul_le_mono_nonneg_r; nia).
      replace ((y * (w * count) + tile * w) * nb + w * nb)
        with ((y * (w * count) + tile * w + w) * nb) by lia.
      replace (w * count * h * nb) with (h * (w * count) * nb) by lia.
      apply Z.mul_le_mono_nonneg_r; lia.
    - intros x b Hx Hb'. rewrite Hwi in Hx. rewrite Hbi in Hb'. rewrite Hbi. simpl.
      destruct (stitch_offset w nb count tile x y b) as (Eb & Ey & Et & Ex); [lia..|].
      subst tab. unfold stitch_horizontal_value. cbv zeta in Eb, Ey, Et, Ex.
      by rewrite Eb, Ey, Et, Ex, Eim. }
  rewrite ret_run. do 2 f_equal. subst r s1 b0.
  rewrite !Z.sub_0_r, Z.add_0_l.
  replace (h * (w * count * nb)) with (w * count * h * nb) by lia.
  by rewrite fill_create by (rewrite length_fmap_seqZ; subst n; nia).
Qed.

Lemma memcpy_fill s0 r b0 (tab : Z → F) src im base n :
  mem s0 !! src = Some im → src ≠ r → wf_image im →
  n = width im * height im * nbands im →
  0 ≤ base → base + n ≤ Z.of_nat (length (data b0)) →
  (∀ k, 0 ≤ k < n → tab (base + k) = get im k) →
  memcpy r base src n (fill s0 r b0 (tab <$> seqZ 0 base))
  = Some ((), fill s0 r b0 (tab <$> seqZ 0 (base + n))).
Proof.
  intros E Hne Hwf Hn Hbase Hroom Htab. pose proof Hwf as (Hw & Hh & Hb & _ & _).
  assert (0 < n) by (subst n; nia).
  unfold memcpy.
  replace (base + n) with (base + (n - 0) * 1) by lia.
  apply (for_range_fill_blocks s0 r b0 tab _ base 1 0 n); [lia|].
  intros k Hk. rewrite !Z.sub_0_r, !Z.mul_1_r.
  erewrite bind_some; cycle 1.
  { apply (load_get _ _ im); [by rewrite mem_fill_ne|done|lia]. }
  replace (base + (k + 1)) with (base + k + 1) by lia.
  apply store_fill_seq; [lia|]. by rewrite Htab.
Qed.

Lemma stitch_vertical_run s images imgs w h nb count :
  tiles s images imgs w h nb → count = Z.of_nat (length images) → 0 < count →
  let r := fresh (dom (mem s)) in
  let n := w * (h * count) * nb in
  heman_ops_stitch_vertical images count s
  = Some (r, mk_state
               (<[r := img_of w (h * count) nb
                         (stitch_vertical_value imgs (w * h * nb) <$> seqZ 0 n)]> (mem s))
               (wlog s ++ fill_log r n)).
Proof.
  intros Ht Hcount Hc r n. unfold heman_ops_stitch_vertical.
  rewrite (bind_some _ _ _ _ _ (assert_true _ _ (Z.lt_gt _ _ Hc))).
  destruct (tiles_lookup s images imgs w h nb 0 Ht)
    as (i0 & h0 & Ei0 & _ & Em0 & Hwf0 & Hw0 & Hh0 & Hb0); [lia|].
  pose proof Hwf0 as (Hw & Hh & Hb & _ & _). rewrite Hw0 in Hw. rewrite Hh0 in Hh.
  rewrite Hb0 in Hb.
  rewrite (bind_some _ _ _ _ _ (index_some _ _ _ _ (Z.le_refl 0) Ei0)).
  rewrite (bind_some _ _ _ _ _ (deref_some _ _ _ Em0)).
  rewrite Hw0, Hh0, Hb0.
  rewrite (bind_some _ _ _ _ _ (assert_same_shape_run _ _ _ _ _ _ _ Ht Hcount Hc)).
  rewrite (bind_some _ _ _ _ _ (create_run _ _ _ _)). fold r.
  set (s1 := created s w (h * count) nb).
  set (b0 := blank (F := F) w (h * count) nb).
  set (size := w * h * nb).
  set (tab := stitch_vertical_value imgs size).
  assert (Hsize : 0 < size) by (subst size; nia).
  assert (Hlen0 : Z.of_nat (length (data b0)) = n)
    by (subst b0 n; rewrite length_blank; nia).
  erewrite bind_some; cycle 1.
  { rewrite <- (fill_nil s1 r b0) at 1 by apply mem_created_eq.
    change (@nil F) with (tab <$> seqZ 0 0).
    apply (for_range_fill_blocks s1 r b0 tab _ 0 size 0 count); [lia|].
    intros tile Htile. rewrite !Z.sub_0_r, !Z.add_0_l.
    destruct (tiles_lookup s images imgs w h nb tile Ht)
      as (p & im & Ep & Eim & Em & Hwf & Hwi & Hhi & Hbi); [lia|].
    assert (Ht0 : 0 ≤ tile) by lia.
    rewrite (bind_some _ _ _ _ _ (index_some _ _ _ _ Ht0 Ep)).
    replace ((tile + 1) * size) with (tile * size + size) by lia.
    apply (memcpy_fill s1 r b0 tab p im);
      [by apply mem_created_ne|by apply fresh_ne with im|done|
       by rewrite Hwi, Hhi, Hbi|nia| |].
    - rewrite Hlen0. subst n size. nia.
    - intros k Hk. subst tab. unfold stitch_vertical_value.
      replace ((tile * size + k) `div` size) with tile
        by (apply (Z.div_unique _ size _ k); lia).
      replace ((tile * size + k) `mod` size) with k
        by (apply (Z.mod_unique _ size tile); lia).
      by rewrite Eim. }
  rewrite ret_run. do 2 f_equal. subst r s1 b0.
  rewrite !Z.sub_0_r, Z.add_0_l.
  replace (count * size) with (w * (h * count) * nb) by (subst size; lia).
  by rewrite fill_create by (rewrite length_fmap_seqZ; subst n; nia).
Qed.

End Runs.

(** ** Partial correctness: what a returning run may touch *)

Section Hoare.
Context {F : Type} `{Scalar F} `{Luminance F}.
Implicit Types (s t : state F) (p r : loc).




Lemma stateless_bind {A B} (m : M F A) (k : A → M F B) :
  stateless m → (∀ a, stateless (k a)) → stateless (m ≫= k).
Proof.
  intros Hm Hk s b s'. unfold mbind, M_bind.
  destruct (m s) as [[a s1]|] eqn:E; [|done].
  intros Hrun. rewrite (Hk a s1 b s' Hrun). exact (Hm s a s1 E).
Qed.


Lemma stateless_assert b : stateless (assert (F := F) b).
Proof. intros s a s'. unfold assert. destruct b; [|done]. by intros [= _ <-]. Qed.

Lemma stateless_deref p : stateless (deref (F := F) p).
Proof.
  intros s a s'. unfold deref. destruct (mem s !! p); simpl; [|done]. by intros [= _ <-].
Qed.


Lemma stateless_index (images : list loc) i : stateless (index (F := F) images i).
Proof.
  intros s a s'. unfold index. case_bool_decide; [|done].
  destruct (images !! Z.to_nat i); simpl; [|done]. by intros [= _ <-].
Qed.









(** *** The footprint invariant *)






(** *** The operators *)

















End Hoare.

(** ** Laws of the sample arithmetic *)

Section Laws.
Context {F : Type} `{FloatLaws F}.

Lemma fadd_zero_zero : fadd (of_int 0 : F) (of_int 0) = of_int 0.
Proof.
  pose proof (fadd_zero_sq (of_int 0 : F)) as E. by rewrite fmul_zero_zero in E.
Qed.

(** A finite sample differenced against itself contributes nothing to the
    energy. *)
Lemma energy_x_vanishes (p q : F) :
  finite p →
  fadd (fmul (fsub p p) (fsub p p)) (fmul (fsub p q) (fsub p q))
  = fmul (fsub p q) (fsub p q).
Proof. intros Hp. rewrite (fsub_diag p Hp), fmul_zero_zero. apply fadd_zero_sq. Qed.

Lemma energy_y_vanishes (p q : F) :
  finite p →
  fadd (fmul (fsub p q) (fsub p q)) (fmul (fsub p p) (fsub p p))
  = fmul (fsub p q) (fsub p q).
Proof. intros Hp. rewrite (fsub_diag p Hp), fmul_zero_zero. apply fadd_sq_zero. Qed.

Lemma energy_flat (c : F) :
  finite c →
  fadd (fmul (fsub c c) (fsub c c)) (fmul (fsub c c) (fsub c c)) = of_int 0.
Proof. intros Hc. rewrite (fsub_diag c Hc), fmul_zero_zero. apply fadd_zero_zero. Qed.


Lemma CLAMP_zero : CLAMP (of_int 0 : F) (of_int 0) (of_int 1) = of_int 0.
Proof. unfold CLAMP, MAX, MIN. rewrite fgt_one_zero. by rewrite fgt_irrefl. Qed.

Lemma CLAMP_one : CLAMP (of_int 1 : F) (of_int 0) (of_int 1) = of_int 1.
Proof.
  unfold CLAMP, MAX, MIN. rewrite fgt_irrefl.
  by rewrite (fgt_asym (of_int 1 : F) _ fgt_one_zero).
Qed.

End Laws.

(** ** The laws in binary32 *)

Lemma SFcompare_refl (x : spec_float) : SFcompare x x = None ∨ SFcompare x x = Some Eq.
Proof.
  destruct x as [s|s| |s m e]; simpl; auto.
  - destruct s; auto.
  - right. rewrite Z.compare_refl.
    change (Pos.compare_cont Eq m m) with (Pos.compare m m).
    rewrite Pos.compare_refl. by destruct s.
Qed.

Lemma SFcompare_antisym (x y : spec_float) :
  SFcompare x y = Some Lt → SFcompare y x = Some Gt.
Proof.
  destruct x as [sx|sx| |sx mx ex], y as [sy|sy| |sy my ey]; simpl; try done;
    try (by destruct sx); try (by destruct sy); try (by destruct sx, sy).
  change (Pos.compare_cont Eq mx my) with (Pos.compare mx my).
  change (Pos.compare_cont Eq my mx) with (Pos.compare my mx).
  rewrite (Z.compare_antisym ex ey), (Pos.compare_antisym mx my).
  destruct sx, sy; try done;
    destruct (ex ?= ey); simpl; try done; destruct (mx ?= my)%positive; simpl; done.
Qed.

Lemma SFltb_irrefl (a : spec_float) : SFltb a a = false.
Proof. unfold SFltb. by destruct (SFcompare_refl a) as [-> | ->]. Qed.

Lemma SFltb_asym (a b : spec_float) : SFltb b a = true → SFltb a b = false.
Proof.
  unfold SFltb. intros Hab.
  destruct (SFcompare b a) as [[]|] eqn:E; try done.
  by rewrite (SFcompare_antisym _ _ E).
Qed.

Lemma f32_sub_diag (p : f32) : finite p → fsub p p = of_int 0.
Proof.
  destruct p as [s|s| |s m e]; cbn [finite f32_finite]; try done; intros _.
  - by destruct s.
  - cbn [fsub f32_scalar]. unfold SFsub. by rewrite Z.sub_diag.
Qed.

(** A square is not the negative zero. *)
Lemma f32_mul_sign (d : f32) : fmul d d ≠ S754_zero true.
Proof.
  destruct d as [s|s| |s m e]; simpl; try done.
  - by destruct s.
  - unfold binary_round_aux.
    destruct (shr_fexp 24 128 _ _ _) as [mrs' e'].
    destruct (shr_fexp 24 128 _ _ _) as [mrs'' e''].
    destruct (shr_m mrs''); try done.
    + by destruct s.
    + by destruct (_ <=? _).
Qed.

Lemma f32_add_zero_sq (d : f32) : fadd (of_int 0) (fmul d d) = fmul d d.
Proof.
  pose proof (f32_mul_sign d) as Hs.
  destruct (fmul d d) as [s|s| |s m e]; try done.
  by destruct s.
Qed.

Lemma f32_add_sq_zero (d : f32) : fadd (fmul d d) (of_int 0) = fmul d d.
Proof.
  pose proof (f32_mul_sign d) as Hs.
  destruct (fmul d d) as [s|s| |s m e]; try done.
  by destruct s.
Qed.

Lemma digits2_shift (m : positive) :
  Zpos (digits2_pos (Pos.mul 8388608 m)) = Zpos (digits2_pos m) + 23.
Proof.
  change (Pos.mul 8388608 m)
    with (m~0~0~0~0~0~0~0~0~0~0~0~0~0~0~0~0~0~0~0~0~0~0~0)%positive.
  cbn [digits2_pos]. lia.
Qed.

(** Multiplying a binary32 number by 1 is exact. *)
Lemma f32_mul_one (s : bool) (m : positive) (e : Z) :
  bounded 24 128 m e = true →
  fmul (of_int 1) (S754_finite s m e : f32) = S754_finite s m e.
Proof.
  unfold bounded, canonical_mantissa. intros [Hc He%Z.leb_le]%andb_prop.
  apply Z.eqb_eq in Hc.
  change (fmul (of_int 1) (S754_finite s m e : f32))
    with (binary_round_aux 24 128 (xorb false s) (Zpos (Pos.mul 8388608 m)) (-23 + e)
            loc_Exact).
  unfold binary_round_aux.
  assert (E1 : shr_fexp 24 128 (Z.pos (8388608 * m)) (-23 + e) loc_Exact
               = ({| shr_m := Zpos m; shr_r := false; shr_s := false |}, e)).
  { unfold shr_fexp. cbn [Zdigits2]. rewrite digits2_shift.
    replace (Z.pos (digits2_pos m) + 23 + (-23 + e)) with (Z.pos (digits2_pos m) + e) by lia.
    rewrite Hc. replace (e - (-23 + e)) with 23 by lia.
    unfold shr. f_equal. lia. }
  rewrite E1. cbn [shr_m loc_of_shr_record round_nearest_even].
  assert (E2 : shr_fexp 24 128 (Zpos m) e loc_Exact
               = ({| shr_m := Zpos m; shr_r := false; shr_s := false |}, e)).
  { unfold shr_fexp. cbn [Zdigits2]. rewrite Hc, Z.sub_diag. reflexivity. }
  rewrite E2. cbn [shr_m].
  replace (e <=? 128 - 24) with true by (symmetry; apply Z.leb_le; lia).
  reflexivity.
Qed.

Lemma f32_add_opp (s : bool) (m : positive) (e : Z) :
  fadd (S754_finite s m e : f32) (S754_finite (negb s) m e) = of_int 0.
Proof.
  cbn [fadd f32_scalar]. unfold SFadd. rewrite Z.min_id. unfold shl_align.
  rewrite Z.sub_diag. cbn [fst].
  destruct s; cbn [cond_Zopp negb]; by rewrite ?Z.add_opp_diag_l, ?Z.add_opp_diag_r.
Qed.

Lemma f32_lerp_one (c : f32) :
  finite c → fadd c (fmul (of_int 1) (fsub (of_int 0) c)) = of_int 0.
Proof.
  destruct c as [s|s| |s m e]; cbn [finite f32_finite]; try done.
  - intros _. by destruct s.
  - intros Hb.
    change (fsub (of_int 0) (S754_finite s m e : f32)) with (S754_finite (negb s) m e : f32).
    rewrite f32_mul_one by done. apply f32_add_opp.
Qed.

Global Instance f32_laws : FloatLaws f32.
Proof.
  split.
  - intros a. apply SFltb_irrefl.
  - intros a b. apply SFltb_asym.
  - reflexivity.
  - apply f32_sub_diag.
  - reflexivity.
  - apply f32_add_zero_sq.
  - apply f32_add_sq_zero.
  - apply f32_lerp_one.
Qed.

(** ** The laws in the rationals *)

Lemma Qc_of_Z_0 : Qc_of_Z 0 = 0%Qc.
Proof. by apply Qc_is_canon. Qed.

Lemma Qc_of_Z_1 : Qc_of_Z 1 = 1%Qc.
Proof. by apply Qc_is_canon. Qed.

Global Instance Qc_laws : FloatLaws Qc.
Proof.
  split; simpl; rewrite ?Qc_of_Z_0, ?Qc_of_Z_1.
  - intros a. apply bool_decide_eq_false_2, Qcle_not_lt, Qcle_refl.
  - intros a b. rewrite bool_decide_eq_true, bool_decide_eq_false.
    intros Hlt. by apply Qcle_not_lt, Qclt_le_weak.
  - reflexivity.
  - intros p _. ring.
  - ring.
  - intros d. ring.
  - intros d. ring.
  - intros c _. ring.
Qed.

(** ** Reading the result images *)

Section Results.
Context {F : Type}.

Lemma sample_img_of w h nb (l : list F) off :
  0 ≤ off → sample (img_of w h nb l) off = l !! Z.to_nat off.
Proof.
  intros Hoff. unfold sample, img_of. simpl. rewrite cell_fmap_Some by done.
  by destruct (l !! Z.to_nat off).
Qed.

Lemma lookup_table (g : Z → F) n i :
  0 ≤ i < n → (g <$> seqZ 0 n) !! Z.to_nat i = Some (g i).
Proof.
  intros Hi. rewrite list_lookup_fmap, lookup_seqZ_lt by lia. simpl.
  do 2 f_equal. lia.
Qed.

Lemma sample_table w h nb (g : Z → F) n i :
  0 ≤ i < n → sample (img_of w h nb (g <$> seqZ 0 n)) i = Some (g i).
Proof. intros Hi. rewrite sample_img_of by lia. by apply lookup_table. Qed.

(** The well-formedness of an image given by its samples. *)
Lemma wf_img_of w h nb (l : list F) :
  0 < w → 0 < h → 0 < nb → Z.of_nat (length l) = w * h * nb →
  wf_image (img_of w h nb l).
Proof.
  intros Hw Hh Hnb Hl. unfold wf_image, img_of. simpl.
  split_and!; [done..|by rewrite length_fmap|].
  apply Forall_fmap, Forall_true. by eexists.
Qed.

Lemma texel_get `{Scalar F} (img : heman_image F) x y b :
  wf_image img → 0 ≤ x < width img → 0 ≤ y < height img → 0 ≤ b < nbands img →
  texel img x y b = Some (get_texel img x y b).
Proof.
  intros Hwf Hx Hy Hb. unfold texel, get_texel. apply get_sample; [done|].
  destruct Hwf as (Hw & Hh & Hnb & _).
  assert (y * width img + x + 1 ≤ height img * width img) by nia.
  nia.
Qed.

Lemma laplacian_value_at `{Scalar F} (img : heman_image F) x y :
  0 ≤ x < width img →
  laplacian_value img (y * width img + x) = laplacian_pixel img x y.
Proof.
  intros Hx. unfold laplacian_value.
  replace ((y * width img + x) `mod` width img) with x
    by (apply (Z.mod_unique _ (width img) y); lia).
  by replace ((y * width img + x) `div` width img) with y
    by (apply (Z.div_unique _ (width img) _ x); lia).
Qed.

(** Row [y] of a single-band image holds its pixels [(0, y)] to
    [(width - 1, y)]. *)
Lemma row_spec (img : heman_image F) y :
  wf_image img → nbands img = 1 → 0 ≤ y < height img →
  Z.of_nat (length (row img y)) = width img ∧
  ∀ x, 0 ≤ x < width img → row img y !! Z.to_nat x = texel img x y 0.
Proof.
  intros Hwf Hnb Hy. pose proof Hwf as (Hw & Hh & _ & Hlen & Hi).
  assert (Hls : Z.of_nat (length (samples img)) = width img * height img).
  { rewrite length_samples, Hlen, Hnb by done. lia. }
  unfold row. split.
  - rewrite length_take, length_drop. nia.
  - intros x Hx. rewrite lookup_take_lt, lookup_drop by lia.
    unfold texel. rewrite Hnb, Z.mul_1_r, Z.add_0_r.
    rewrite sample_samples by (done || nia). f_equal. nia.
Qed.

(** The log of a complete fill names every offset of the buffer once. *)
Lemma fill_log_once (r : loc) n :
  NoDup (fill_log r n) ∧
  ∀ p off, (p, off) ∈ fill_log r n ↔ p = r ∧ 0 ≤ off < n.
Proof.
  unfold fill_log. split.
  - apply NoDup_fmap_2; [by intros ?? [=]|apply NoDup_seqZ].
  - intros p off. rewrite list_elem_of_fmap. split.
    + intros (i & [= -> ->] & Hi). apply elem_of_seqZ in Hi. split; [done|lia].
    + intros [-> Hoff]. exists off. split; [done|]. apply elem_of_seqZ. lia.
Qed.

End Results.

(** ** The examples of the specification, run on the embedding *)

Example step_runs :
  returned (heman_ops_step 1%positive (Q2Qc (5 # 10)) step_example)
  = Some [0; 1; 1; 1]%Q.
Proof. vm_compute. reflexivity. Qed.

Example sweep_runs :
  returned (heman_ops_sweep 1%positive sweep_example) = Some [2; 6]%Q.
Proof. vm_compute. reflexivity. Qed.

Example stitch_horizontal_runs :
  returned (heman_ops_stitch_horizontal [1%positive; 2%positive] 2 tiles_input)
  = Some [1; 2]%Q.
Proof. vm_compute. reflexivity. Qed.

Example stitch_vertical_runs :
  returned (heman_ops_stitch_vertical [1%positive; 2%positive] 2 tiles_input)
  = Some [1; 2]%Q.
Proof. vm_compute. reflexivity. Qed.

Example sobel_runs :
  returned (heman_ops_sobel 1%positive red sobel_input) = Some [0; 0; 0; 0; 0; 0]%Q.
Proof. vm_compute. reflexivity. Qed.

(** ** [heman_ops_accumulate] in detail *)

Section AccumulateFacts.
Context {F : Type} `{Scalar F}.
Implicit Types (d si : heman_image F) (s : state F).

Lemma length_accumulate_table d si :
  0 ≤ width d * height d →
  length (accumulate_value d si <$> seqZ 0 (width d * height d))
  = Z.to_nat (width d * height d).
Proof. intros. by rewrite length_fmap, length_seqZ. Qed.

Lemma accumulate_result (dst src : loc) d si s :
  mem s !! dst = Some d → mem s !! src = Some si →
  wf_image d → wf_image si → same_shape d si →
  heman_ops_accumulate dst src s
  = Some ((), mk_state (<[dst := accumulated d si]> (mem s))
                       (wlog s ++ fill_log dst (width d * height d))).
Proof.
  intros Ed Es Hwd Hws (Hnb & Hw & Hh). pose proof Hwd as (Hw0 & Hh0 & _).
  rewrite (accumulate_run dst src d si s) by done.
  unfold fill, accumulated, fill_log. do 3 f_equal.
  - rewrite length_accumulate_table by nia. done.
  - rewrite length_accumulate_table by nia. do 3 f_equal. nia.
Qed.

Lemma wf_accumulated d si : wf_image d → wf_image (accumulated d si).
Proof.
  intros (Hw & Hh & Hnb & Hlen & Hi). unfold wf_image, accumulated. simpl.
  split_and!; [done..| |].
  - rewrite length_app, length_fmap, length_accumulate_table, length_drop by nia. nia.
  - apply Forall_app. split.
    + apply Forall_fmap, Forall_true. by eexists.
    + by apply Forall_drop.
Qed.




Lemma sample_accumulated_front d si i :
  0 ≤ i < width d * height d →
  sample (accumulated d si) i = Some (accumulate_value d si i).
Proof.
  intros Hi. unfold sample, accumulated. simpl.
  unfold cell. rewrite bool_decide_eq_true_2 by lia.
  rewrite lookup_app_l by (rewrite length_fmap, length_accumulate_table; lia).
  by rewrite list_lookup_fmap, lookup_table.
Qed.

Lemma sample_accumulated_rest d si i :
  0 ≤ width d * height d ≤ i →
  sample (accumulated d si) i = sample d i.
Proof.
  intros Hi. unfold sample, accumulated. simpl.
  unfold cell. rewrite bool_decide_eq_true_2 by lia.
  rewrite lookup_app_r by (rewrite length_fmap, length_accumulate_table; lia).
  rewrite length_fmap, length_accumulate_table, lookup_drop by lia.
  do 2 f_equal. lia.
Qed.


End AccumulateFacts.

(** ** The pixels of [heman_ops_sobel] *)

(** What [heman_ops_sobel] returns: each band [c] of a pixel becomes
    [c + is_edge * (0 - c)]. *)
Lemma sobel_pixels {F : Type} `{Scalar F} `{Luminance F}
    (img : loc) (edge_color : heman_color F) (im : heman_image F) (s : state F) :
  mem s !! img = Some im → wf_image im → nbands im = 3 →
  ∃ r s' out,
    heman_ops_sobel img edge_color s = Some (r, s') ∧
    mem s !! r = None ∧ mem s' !! r = Some out ∧
    width out = width im ∧ height out = height im ∧ nbands out = 3 ∧
    ∀ x y b, 0 ≤ x < width im → 0 ≤ y < height im → 0 ≤ b < 3 →
      ∃ c, texel im x y b = Some c ∧
           texel out x y b
           = Some (fadd c (fmul (edge_flag im x y) (fsub (of_int 0) c))).
Proof.
  intros E Hwf Hnb. pose proof Hwf as (Hw & Hh & _).
  eexists _, _, _. split; [by apply sobel_run|].
  split; [apply fresh_None|]. split; [apply lookup_insert_eq|].
  split_and!; [done..|].
  intros x y b Hx Hy Hb. exists (get_texel im x y b).
  split; [apply texel_get; [done|lia..]|].
  unfold texel. simpl.
  replace ((y * width im + x) * 3 + b) with (3 * (y * width im + x) + b) by lia.
  rewrite sample_table.
  - f_equal. rewrite sobel_value_at by (done || lia).
    unfold get_texel. rewrite Hnb.
    by replace ((y * width im + x) * 3 + b) with (3 * (y * width im + x) + b) by lia.
  - assert (y * width im + x + 1 ≤ height im * width im) by nia. nia.
Qed.

(** An edge pixel comes out black where its sample is finite. *)
Lemma edge_flag_black {F : Type} `{FloatLaws F} `{Luminance F}
    (im : heman_image F) (x y : Z) (c : F) :
  is_edge_pixel im x y = true → finite c →
  fadd c (fmul (edge_flag im x y) (fsub (of_int 0) c)) = of_int 0.
Proof.
  unfold is_edge_pixel, edge_flag, sobel_is_edge. intros -> Hc.
  by apply lerp_one_finite.
Qed.

(** ** The properties of the specification *)

(** C1 fails on the code: the white pixel of [sobel_image] is an edge
    pixel, the edge colour passed is red, and the pixel comes out black. *)
Theorem sobel_edge_is_black_not_red :
  ∃ r s' out,
    heman_ops_sobel 1%positive red sobel_input = Some (r, s') ∧
    mem s' !! r = Some out ∧
    is_edge_pixel sobel_image 0 0 = true ∧
    texel out 0 0 0 = Some (Qc_of_Z 0) ∧
    texel out 0 0 1 = Some (Qc_of_Z 0) ∧
    texel out 0 0 2 = Some (Qc_of_Z 0) ∧
    red = (Qc_of_Z 1, Qc_of_Z 0, Qc_of_Z 0) ∧ Qc_of_Z 0 ≠ Qc_of_Z 1.
Proof.
  destruct (sobel_pixels 1%positive red sobel_image sobel_input)
    as (r & s' & out & Hrun & _ & Hout & _ & _ & _ & Hpix);
    [reflexivity|apply wf_img_of; reflexivity|reflexivity|].
  assert (Hedge : is_edge_pixel sobel_image 0 0 = true) by (vm_compute; reflexivity).
  exists r, s', out. split_and!; [done..| | | |done|].
  - destruct (Hpix 0 0 0) as (c & _ & Hc); [simpl; lia..|].
    by rewrite (edge_flag_black sobel_image 0 0 c Hedge I) in Hc.
  - destruct (Hpix 0 0 1) as (c & _ & Hc); [simpl; lia..|].
    by rewrite (edge_flag_black sobel_image 0 0 c Hedge I) in Hc.
  - destruct (Hpix 0 0 2) as (c & _ & Hc); [simpl; lia..|].
    by rewrite (edge_flag_black sobel_image 0 0 c Hedge I) in Hc.
  - intros Heq. by apply (f_equal this) in Heq.
Qed.

(** C2, as the code has it: for every single-band input image,
    [heman_ops_sweep] returns a new single-band image whose width is the
    input's height and whose height is 1, and for each row [y] of the input
    the output sample of column [y] is the sum of the row's [width] samples,
    added from 0 in the order of the columns, times the reciprocal
    [1 / width]: the product the code forms, in the arithmetic of the
    samples, which need not be the quotient of the sum by [width]. *)
Theorem sweep_spec {F : Type} `{Scalar F} (hmap : loc) (h : heman_image F) (s : state F) :
  mem s !! hmap = Some h → wf_image h → nbands h = 1 →
  in_int (width h) → in_int (height h) →
  ∃ r s' out,
    heman_ops_sweep hmap s = Some (r, s') ∧
    mem s !! r = None ∧ mem s' !! r = Some out ∧
    width out = height h ∧ height out = 1 ∧ nbands out = 1 ∧
    Z.of_nat (length (data out)) = height h ∧
    ∀ y, 0 ≤ y < height h →
      ∃ samples_y,
        Z.of_nat (length samples_y) = width h ∧
        (∀ x, 0 ≤ x < width h → samples_y !! Z.to_nat x = texel h x y 0) ∧
        texel out y 0 0
        = Some (fmul (foldl fadd (of_int 0) samples_y)
                     (fdiv (of_int 1) (of_int (width h)))).
Proof.
  intros E Hwf Hnb _ _. pose proof Hwf as (Hw & Hh & _).
  eexists _, _, _. split; [by apply sweep_run|].
  split; [apply fresh_None|]. split; [apply lookup_insert_eq|].
  split_and!; [done..| |].
  - simpl. rewrite length_fmap. by apply length_fmap_seqZ, Z.lt_le_incl.
  - intros y Hy. exists (row h y).
    destruct (row_spec h y Hwf Hnb Hy) as [Hlen Hrow]. split_and!; [done..|].
    unfold texel. simpl. rewrite Z.mul_1_r, Z.add_0_r.
    by rewrite sample_table.
Qed.

Lemma sweep_spec_witness :
  (mem heights_input !! 1%positive = Some hill_image ∧ wf_image hill_image ∧
   nbands hill_image = 1 ∧ in_int (width hill_image) ∧ in_int (height hill_image)) ∧
  ∃ r s' out,
    heman_ops_sweep 1%positive heights_input = Some (r, s') ∧
    mem heights_input !! r = None ∧ mem s' !! r = Some out ∧
    width out = height hill_image ∧ height out = 1 ∧ nbands out = 1 ∧
    Z.of_nat (length (data out)) = height hill_image ∧
    ∀ y, 0 ≤ y < height hill_image →
      ∃ samples_y,
        Z.of_nat (length samples_y) = width hill_image ∧
        (∀ x, 0 ≤ x < width hill_image →
           samples_y !! Z.to_nat x = texel hill_image x y 0) ∧
        texel out y 0 0
        = Some (fmul (foldl fadd (of_int 0) samples_y)
                     (fdiv (of_int 1) (of_int (width hill_image)))).
Proof.
  assert (Hwf : wf_image hill_image) by (apply (bool_decide_unpack _); vm_compute; exact I).
  assert (Hiw : in_int (width hill_image)) by int_range.
  assert (Hih : in_int (height hill_image)) by int_range.
  split; [exact (conj eq_refl (conj Hwf (conj eq_refl (conj Hiw Hih))))|].
  exact (sweep_spec 1%positive hill_image heights_input eq_refl Hwf eq_refl Hiw Hih).
Defined.

(** C2 as stated fails: on an input 2 wide and 3 high the output is 3 wide
    and 1 high, not 1 wide and 3 high. *)
Lemma sweep_dims_counterexample :
  ∃ r s' out,
    heman_ops_sweep 1%positive sweep_input = Some (r, s') ∧
    mem s' !! r = Some out ∧
    width sweep_image = 2 ∧ height sweep_image = 3 ∧
    ¬ (width out = 1 ∧ height out = height sweep_image).
Proof.
  eexists _, _, _. split.
  { apply (sweep_run 1%positive sweep_image sweep_input);
      [reflexivity|apply wf_img_of; reflexivity|reflexivity]. }
  split; [apply lookup_insert_eq|]. simpl. lia.
Qed.

(** The sample of C2 is a product, not a quotient: in binary32 the mean of
    a row of 41 ones comes out as [41 * (1 / 41)], the number below 1, while
    the sum of the row divided by 41 is 1. *)
Lemma sweep_mean_rounds :
  ∃ r s' out,
    heman_ops_sweep 1%positive ones_input = Some (r, s') ∧
    mem s' !! r = Some out ∧
    foldl fadd (of_int 0) (samples ones_image) = f32_of_Z 41 ∧
    fdiv (f32_of_Z 41) (of_int (width ones_image)) = f32_of_Z 1 ∧
    texel out 0 0 0 = Some (S754_finite false 16777215 (-24)) ∧
    S754_finite false 16777215 (-24) ≠ f32_of_Z 1.
Proof.
  eexists _, _, _. split.
  { apply (sweep_run 1%positive ones_image ones_input);
      [reflexivity|apply (bool_decide_unpack _); vm_compute; exact I|reflexivity]. }
  split; [apply lookup_insert_eq|].
  split; [vm_compute; reflexivity|]. split; [vm_compute; reflexivity|].
  split; [vm_compute; reflexivity|]. discriminate.
Qed.

(** C3 fails on the code: on a pixel of three bands only the first
    [width * height = 1] sample of [dst] is added to; the other two bands
    keep their values. *)
Theorem accumulate_skips_bands {F : Type} `{Scalar F} (a b c x y z : F) :
  let s := mk_state {[ 1%positive := img_of 1 1 3 [a; b; c];
                       2%positive := img_of 1 1 3 [x; y; z] ]} [] in
  ∃ s', heman_ops_accumulate 1%positive 2%positive s = Some ((), s') ∧
        mem s' !! 1%positive = Some (img_of 1 1 3 [fadd a x; b; c]).
Proof.
  intros s. eexists. split.
  - apply (accumulate_run 1%positive 2%positive (img_of 1 1 3 [a; b; c])
             (img_of 1 1 3 [x; y; z]) s);
      try reflexivity; apply wf_img_of; reflexivity.
  - rewrite mem_fill_eq. reflexivity.
Qed.



(** C5, as the code has it: for every single-band input image,
    [heman_ops_laplacian] returns a new single-band image of the same
    dimensions whose element at [(x, y)] is [(p - px)^2 + (p - py)^2] with
    [p = input(x, y)], [px = input(min(x+1, width-1), y)] and
    [py = input(x, min(y+1, height-1))].  In the last column [px] is [p]
    and in the last row [py] is [p]; the element then is [(p - py)^2],
    respectively [(p - px)^2], when [p] is finite. *)
Theorem laplacian_spec {F : Type} `{FloatLaws F}
    (heightmap : loc) (hm : heman_image F) (s : state F) :
  mem s !! heightmap = Some hm → wf_image hm → nbands hm = 1 →
  in_int (width hm * height hm) →
  ∃ r s' out,
    heman_ops_laplacian heightmap s = Some (r, s') ∧
    mem s !! r = None ∧ mem s' !! r = Some out ∧
    width out = width hm ∧ height out = height hm ∧ nbands out = 1 ∧
    Z.of_nat (length (data out)) = width hm * height hm ∧
    ∀ x y, 0 ≤ x < width hm → 0 ≤ y < height hm →
      ∃ p px py,
        texel hm x y 0 = Some p ∧
        texel hm (Z.min (x + 1) (width hm - 1)) y 0 = Some px ∧
        texel hm x (Z.min (y + 1) (height hm - 1)) 0 = Some py ∧
        texel out x y 0
        = Some (fadd (fmul (fsub p px) (fsub p px)) (fmul (fsub p py) (fsub p py))) ∧
        (x = width hm - 1 →
         px = p ∧
         (finite p → texel out x y 0 = Some (fmul (fsub p py) (fsub p py)))) ∧
        (y = height hm - 1 →
         py = p ∧
         (finite p → texel out x y 0 = Some (fmul (fsub p px) (fsub p px)))).
Proof.
  intros E Hwf Hnb _. pose proof Hwf as (Hw & Hh & _).
  eexists _, _, _. split; [by apply laplacian_run|].
  split; [apply fresh_None|]. split; [apply lookup_insert_eq|].
  split_and!; [done..| |].
  - simpl. rewrite length_fmap. apply length_fmap_seqZ. nia.
  - intros x y Hx Hy.
    assert (Hout : texel (img_of (width hm) (height hm) 1
                            (laplacian_value hm <$> seqZ 0 (width hm * height hm))) x y 0
                   = Some (laplacian_pixel hm x y)).
    { unfold texel. simpl. rewrite Z.mul_1_r, Z.add_0_r.
      rewrite sample_table by nia. by rewrite laplacian_value_at. }
    exists (get_texel hm x y 0),
           (get_texel hm (Z.min (x + 1) (width hm - 1)) y 0),
           (get_texel hm x (Z.min (y + 1) (height hm - 1)) 0).
    split_and!; try (apply texel_get; [done|lia..]); [done| |].
    + intros ->.
      replace (Z.min (width hm - 1 + 1) (width hm - 1)) with (width hm - 1) by lia.
      split; [done|]. intros Hp. rewrite Hout. unfold laplacian_pixel.
      replace (Z.min (width hm - 1 + 1) (width hm - 1)) with (width hm - 1) by lia.
      by rewrite energy_x_vanishes.
    + intros ->.
      replace (Z.min (height hm - 1 + 1) (height hm - 1)) with (height hm - 1) by lia.
      split; [done|]. intros Hp. rewrite Hout. unfold laplacian_pixel.
      replace (Z.min (height hm - 1 + 1) (height hm - 1)) with (height hm - 1) by lia.
      by rewrite energy_y_vanishes.
Qed.

Lemma laplacian_spec_witness :
  (mem heights_input !! 1%positive = Some hill_image ∧ wf_image hill_image ∧
   nbands hill_image = 1 ∧ in_int (width hill_image * height hill_image)) ∧
  ∃ r s' out,
    heman_ops_laplacian 1%positive heights_input = Some (r, s') ∧
    mem heights_input !! r = None ∧ mem s' !! r = Some out ∧
    width out = width hill_image ∧ height out = height hill_image ∧ nbands out = 1 ∧
    Z.of_nat (length (data out)) = width hill_image * height hill_image ∧
    ∀ x y, 0 ≤ x < width hill_image → 0 ≤ y < height hill_image →
      ∃ p px py,
        texel hill_image x y 0 = Some p ∧
        texel hill_image (Z.min (x + 1) (width hill_image - 1)) y 0 = Some px ∧
        texel hill_image x (Z.min (y + 1) (height hill_image - 1)) 0 = Some py ∧
        texel out x y 0
        = Some (fadd (fmul (fsub p px) (fsub p px)) (fmul (fsub p py) (fsub p py))) ∧
        (x = width hill_image - 1 →
         px = p ∧
         (finite p → texel out x y 0 = Some (fmul (fsub p py) (fsub p py)))) ∧
        (y = height hill_image - 1 →
         py = p ∧
         (finite p → texel out x y 0 = Some (fmul (fsub p px) (fsub p px)))).
Proof.
  assert (Hwf : wf_image hill_image) by (apply (bool_decide_unpack _); vm_compute; exact I).
  assert (Hint : in_int (width hill_image * height hill_image)) by int_range.
  split; [exact (conj eq_refl (conj Hwf (conj eq_refl Hint)))|].
  exact (laplacian_spec 1%positive hill_image heights_input eq_refl Hwf eq_refl Hint).
Defined.

(** C5 as stated fails on an infinite sample: in the one column of
    [cliff_image], which is its last, [p] is infinite above [py = 0]; the
    claim gives [(p - py)^2], which is infinite, and the code stores
    [(p - p)^2 + (p - py)^2], which is NaN. *)
Lemma laplacian_infinite_counterexample :
  ∃ r s' out,
    heman_ops_laplacian 2%positive heights_input = Some (r, s') ∧
    mem s' !! r = Some out ∧
    0 = width cliff_image - 1 ∧
    texel cliff_image 0 0 0 = Some f32_infinity ∧
    texel cliff_image 0 (Z.min (0 + 1) (height cliff_image - 1)) 0 = Some (f32_of_Z 0) ∧
    fmul (fsub f32_infinity (f32_of_Z 0)) (fsub f32_infinity (f32_of_Z 0)) = f32_infinity ∧
    texel out 0 0 0 = Some f32_nan ∧
    f32_nan ≠ f32_infinity.
Proof.
  eexists _, _, _. split.
  { apply (laplacian_run 2%positive cliff_image heights_input);
      [reflexivity|apply (bool_decide_unpack _); vm_compute; exact I|reflexivity]. }
  split; [apply lookup_insert_eq|].
  split_and!; try (vm_compute; reflexivity). discriminate.
Qed.




(** C7: for every sequence of [count >= 1] images of one width, height and
    band count, [heman_ops_stitch_horizontal] returns a new image
    [width * count] wide, of the same height and bands, whose columns
    [i * width .. (i + 1) * width - 1] are a sample-for-sample copy of image
    [i] in all rows and bands, and each sample of the result is written
    exactly once.  The number of samples of the result is within the range
    of [int]. *)
Theorem stitch_horizontal_spec {F : Type} `{Scalar F}
    (images : list loc) (imgs : list (heman_image F)) (count w h nb : Z) (s : state F) :
  tiles s images imgs w h nb → count = Z.of_nat (length images) → 0 < count →
  in_int (w * count * h * nb) →
  ∃ r s' out written,
    heman_ops_stitch_horizontal images count s = Some (r, s') ∧
    mem s !! r = None ∧ mem s' !! r = Some out ∧
    width out = w * count ∧ height out = h ∧ nbands out = nb ∧
    Z.of_nat (length (data out)) = w * count * h * nb ∧
    (∀ i im x y b,
       imgs !! i = Some im → 0 ≤ x < w → 0 ≤ y < h → 0 ≤ b < nb →
       ∃ v, texel im x y b = Some v ∧ texel out (Z.of_nat i * w + x) y b = Some v) ∧
    wlog s' = wlog s ++ written ∧ NoDup written ∧
    (∀ p off, (p, off) ∈ written ↔ p = r ∧ 0 ≤ off < w * count * h * nb).
Proof.
  intros Ht Hcount Hc _.
  destruct (tiles_lookup s images imgs w h nb 0 Ht)
    as (_ & h0 & _ & _ & _ & (Hw & Hh & Hb & _) & Hw0 & Hh0 & Hb0); [lia|].
  rewrite Hw0 in Hw. rewrite Hh0 in Hh. rewrite Hb0 in Hb.
  eexists _, _, _, _. split; [by apply (stitch_horizontal_run s images imgs)|].
  split; [apply fresh_None|]. split; [apply lookup_insert_eq|].
  split_and!; [done..| | |done|apply fill_log_once|apply fill_log_once].
  - simpl. rewrite length_fmap. apply length_fmap_seqZ. nia.
  - intros i im x y b Eim Hx Hy Hb'.
    assert (Hi : 0 ≤ Z.of_nat i < Z.of_nat (length images)).
    { destruct Ht as [H2 _]. rewrite (Forall2_length _ _ _ H2).
      apply lookup_lt_Some in Eim. lia. }
    destruct (tiles_lookup s images imgs w h nb (Z.of_nat i) Ht)
      as (p & im' & _ & Eim' & _ & Hwf & Hwi & Hhi & Hbi); [done|].
    rewrite Nat2Z.id, Eim in Eim'. injection Eim' as <-.
    exists (get_texel im x y b). split; [apply texel_get; [done|lia..]|].
    unfold texel. simpl.
    replace ((y * (w * count) + (Z.of_nat i * w + x)) * nb + b)
      with ((y * (w * count) + Z.of_nat i * w) * nb + x * nb + b) by lia.
    destruct (stitch_offset w nb count (Z.of_nat i) x y b) as (Eb & Ey & Et & Ex); [lia..|].
    cbv zeta in Eb, Ey, Et, Ex.
    rewrite sample_table.
    + unfold stitch_horizontal_value. by rewrite Eb, Ey, Et, Ex, Nat2Z.id, Eim.
    + assert (H1 : Z.of_nat i * w + x + 1 ≤ count * w) by nia.
      assert (H2 : y * (w * count) + (Z.of_nat i * w + x + 1) ≤ h * (w * count)) by nia.
      split; [nia|].
      replace (w * count * h * nb) with (h * (w * count) * nb) by lia.
      assert (H3 : (y * (w * count) + (Z.of_nat i * w + x + 1)) * nb
                   ≤ h * (w * count) * nb) by (apply Z.mul_le_mono_nonneg_r; lia).
      lia.
Qed.

Lemma stitch_horizontal_spec_witness :
  (tiles big_input [1%positive; 2%positive]
     [big_dst; big_a] 1 1 1 ∧
   2 = Z.of_nat (length [1%positive; 2%positive]) ∧ 0 < 2 ∧ in_int (1 * 2 * 1 * 1)) ∧
  ∃ r s' out written,
    heman_ops_stitch_horizontal [1%positive; 2%positive] 2 big_input = Some (r, s') ∧
    mem big_input !! r = None ∧ mem s' !! r = Some out ∧
    width out = 1 * 2 ∧ height out = 1 ∧ nbands out = 1 ∧
    Z.of_nat (length (data out)) = 1 * 2 * 1 * 1 ∧
    (∀ i im x y b,
       [big_dst; big_a] !! i = Some im →
       0 ≤ x < 1 → 0 ≤ y < 1 → 0 ≤ b < 1 →
       ∃ v, texel im x y b = Some v ∧ texel out (Z.of_nat i * 1 + x) y b = Some v) ∧
    wlog s' = wlog big_input ++ written ∧ NoDup written ∧
    (∀ p off, (p, off) ∈ written ↔ p = r ∧ 0 ≤ off < 1 * 2 * 1 * 1).
Proof.
  assert (Ht : tiles big_input [1%positive; 2%positive]
                 [big_dst; big_a] 1 1 1).
  { split.
    - repeat constructor.
    - repeat (apply Forall_cons; split;
                [split_and!;
                   [apply (bool_decide_unpack _); vm_compute; exact I|reflexivity..]|]).
      apply Forall_nil. done. }
  assert (Hpos : 0 < 2) by lia.
  assert (Hint : in_int (1 * 2 * 1 * 1)) by int_range.
  split; [exact (conj Ht (conj eq_refl (conj Hpos Hint)))|].
  exact (stitch_horizontal_spec [1%positive; 2%positive]
           [big_dst; big_a] 2 1 1 1 big_input
           Ht eq_refl Hpos Hint).
Defined.








(** C10, as the code has it: for every 3-band input image and every two
    edge colours [c1] and [c2], [heman_ops_sobel] with [c1] and with [c2]
    produce the same output: the result does not depend on the edge colour.
    Each band [c] of a pixel that the code classifies as an edge comes out
    as [c + 1 * (0 - c)], which is 0 when [c] is finite: the edge pixels of
    an image of finite samples are coloured (0, 0, 0). *)
Theorem sobel_ignores_edge_color {F : Type} `{FloatLaws F} `{Luminance F}
    (img : loc) (c1 c2 : heman_color F) (im : heman_image F) (s : state F) :
  mem s !! img = Some im → wf_image im → nbands im = 3 →
  in_int (width im * height im) →
  heman_ops_sobel img c1 s = heman_ops_sobel img c2 s ∧
  ∃ r s' out,
    heman_ops_sobel img c1 s = Some (r, s') ∧ mem s' !! r = Some out ∧
    ∀ x y b, 0 ≤ x < width im → 0 ≤ y < height im → 0 ≤ b < 3 →
      is_edge_pixel im x y = true →
      ∃ c, texel im x y b = Some c ∧
           texel out x y b = Some (fadd c (fmul (of_int 1) (fsub (of_int 0) c))) ∧
           (finite c → texel out x y b = Some (of_int 0)).
Proof.
  intros E Hwf Hnb _. split; [reflexivity|].
  destruct (sobel_pixels img c1 im s E Hwf Hnb)
    as (r & s' & out & Hrun & _ & Hout & _ & _ & _ & Hpix).
  exists r, s', out. split_and!; [done..|].
  intros x y b Hx Hy Hb Hedge.
  destruct (Hpix x y b Hx Hy Hb) as (c & Ec & Hc). exists c.
  split; [done|]. split.
  - rewrite Hc. unfold edge_flag, sobel_is_edge.
    unfold is_edge_pixel in Hedge. by rewrite Hedge.
  - intros Hfin. by rewrite Hc, (edge_flag_black im x y c Hedge Hfin).
Qed.

Lemma sobel_ignores_edge_color_witness :
  (mem edge_input !! 1%positive = Some edge_image ∧ wf_image edge_image ∧
   nbands edge_image = 3 ∧ in_int (width edge_image * height edge_image)) ∧
  heman_ops_sobel 1%positive f32_red edge_input
  = heman_ops_sobel 1%positive f32_blue edge_input ∧
  ∃ r s' out,
    heman_ops_sobel 1%positive f32_red edge_input = Some (r, s') ∧
    mem s' !! r = Some out ∧
    ∀ x y b, 0 ≤ x < width edge_image → 0 ≤ y < height edge_image → 0 ≤ b < 3 →
      is_edge_pixel edge_image x y = true →
      ∃ c, texel edge_image x y b = Some c ∧
           texel out x y b = Some (fadd c (fmul (of_int 1) (fsub (of_int 0) c))) ∧
           (finite c → texel out x y b = Some (of_int 0)).
Proof.
  assert (Hwf : wf_image edge_image) by (apply (bool_decide_unpack _); vm_compute; exact I).
  assert (Hint : in_int (width edge_image * height edge_image)) by int_range.
  split; [exact (conj eq_refl (conj Hwf (conj eq_refl Hint)))|].
  exact (sobel_ignores_edge_color 1%positive f32_red f32_blue edge_image edge_input
           eq_refl Hwf eq_refl Hint).
Defined.

(** C10 as stated fails on an infinite sample: the middle pixel of
    [edge_image] is classified as an edge, its samples are infinite, and it
    comes out as NaN, not 0. *)
Lemma sobel_edge_nan_counterexample :
  ∃ r s' out,
    heman_ops_sobel 1%positive f32_red edge_input = Some (r, s') ∧
    mem s' !! r = Some out ∧
    is_edge_pixel edge_image 1 1 = true ∧
    texel edge_image 1 1 0 = Some f32_infinity ∧
    texel out 1 1 0 = Some f32_nan ∧
    f32_nan ≠ f32_of_Z 0.
Proof.
  destruct (sobel_pixels 1%positive f32_red edge_image edge_input)
    as (r & s' & out & Hrun & _ & Hout & _ & _ & _ & Hpix);
    [reflexivity|apply (bool_decide_unpack _); vm_compute; exact I|reflexivity|].
  exists r, s', out. split_and!; [done|done|by vm_compute|by vm_compute| |discriminate].
  destruct (Hpix 1 1 0) as (c & Ec & Hc); [simpl; lia..|].
  assert (Ei : texel edge_image 1 1 0 = Some f32_infinity) by (vm_compute; reflexivity).
  rewrite Ei in Ec. injection Ec as <-.
  rewrite Hc. by vm_compute.
Qed.

(** ** Further properties of the operators *)

(** *** Failed assertions *)

Section Failures.
Context {F : Type} `{Scalar F} `{Luminance F}.

Lemma bind_none {A B} (m : M F A) (k : A → M F B) s : m s = None → (m ≫= k) s = None.
Proof. intros E. unfold mbind, M_bind. by rewrite E. Qed.

Lemma assert_false s (P : Prop) `{Decision P} :
  ¬ P → assert (F := F) (bool_decide P) s = None.
Proof. intros HP. unfold assert. by rewrite bool_decide_eq_false_2. Qed.

End Failures.

(** X1: the operators that require one band ([heman_ops_step],
    [heman_ops_sweep], [heman_ops_laplacian]) have no result on an image
    whose band count is not 1, and [heman_ops_sobel] has none on an image
    whose band count is not 3: the assertion on [nbands] fails. *)
Theorem band_count_asserted {F : Type} `{Scalar F} `{Luminance F}
    (p : loc) (h : heman_image F) (threshold : F) (c : heman_color F) (s : state F) :
  mem s !! p = Some h →
  (nbands h ≠ 1 →
     heman_ops_step p threshold s = None ∧ heman_ops_sweep p s = None ∧
     heman_ops_laplacian p s = None) ∧
  (nbands h ≠ 3 → heman_ops_sobel p c s = None).
Proof.
  intros E. split.
  - intros Hnb. split_and!.
    + unfold heman_ops_step. rewrite (bind_some _ _ _ _ _ (deref_some _ _ _ E)).
      by apply bind_none, assert_false.
    + unfold heman_ops_sweep. rewrite (bind_some _ _ _ _ _ (deref_some _ _ _ E)).
      by apply bind_none, assert_false.
    + unfold heman_ops_laplacian. rewrite (bind_some _ _ _ _ _ (deref_some _ _ _ E)).
      by apply bind_none, assert_false.
  - intros Hnb. unfold heman_ops_sobel. rewrite (bind_some _ _ _ _ _ (deref_some _ _ _ E)).
    by apply bind_none, assert_false.
Qed.

Lemma band_count_asserted_witness :
  (mem two_band_input !! 1%positive = Some two_band_image ∧
   nbands two_band_image ≠ 1 ∧ nbands two_band_image ≠ 3) ∧
  heman_ops_step 1%positive (Qc_of_Z 0) two_band_input = None ∧
  heman_ops_sweep 1%positive two_band_input = None ∧
  heman_ops_laplacian 1%positive two_band_input = None ∧
  heman_ops_sobel 1%positive red two_band_input = None.
Proof.
  assert (N1 : nbands two_band_image ≠ 1) by (intros Heq; vm_compute in Heq; discriminate).
  assert (N3 : nbands two_band_image ≠ 3) by (intros Heq; vm_compute in Heq; discriminate).
  split; [exact (conj eq_refl (conj N1 N3))|].
  destruct (band_count_asserted 1%positive two_band_image (Qc_of_Z 0) red two_band_input
              eq_refl) as [H1 H3].
  destruct (H1 N1) as (Hstep & Hsweep & Hlap).
  exact (conj Hstep (conj Hsweep (conj Hlap (H3 N3)))).
Defined.

(** X2: [heman_ops_accumulate] has no result when the two images differ in
    width, height or band count: one of its three assertions fails. *)
Theorem accumulate_shape_asserted {F : Type} `{Scalar F}
    (dst src : loc) (d si : heman_image F) (s : state F) :
  mem s !! dst = Some d → mem s !! src = Some si →
  ¬ same_shape d si →
  heman_ops_accumulate dst src s = None.
Proof.
  intros Ed Es Hne. unfold heman_ops_accumulate.
  rewrite (bind_some _ _ _ _ _ (deref_some _ _ _ Ed)).
  rewrite (bind_some _ _ _ _ _ (deref_some _ _ _ Es)).
  destruct (decide (nbands d = nbands si)) as [Hnb|Hnb];
    [|by apply bind_none, assert_false].
  rewrite (bind_some _ _ _ _ _ (assert_true _ _ Hnb)).
  destruct (decide (width d = width si)) as [Hw|Hw];
    [|by apply bind_none, assert_false].
  rewrite (bind_some _ _ _ _ _ (assert_true _ _ Hw)).
  destruct (decide (height d = height si)) as [Hh|Hh];
    [|by apply bind_none, assert_false].
  by destruct Hne.
Qed.

Lemma accumulate_shape_asserted_witness :
  (mem two_band_input !! 1%positive = Some two_band_image ∧
   mem two_band_input !! 2%positive = Some sweep_image ∧
   ¬ same_shape two_band_image sweep_image) ∧
  heman_ops_accumulate 1%positive 2%positive two_band_input = None.
Proof.
  assert (Hne : ¬ same_shape two_band_image sweep_image).
  { intros (Hnb & _). vm_compute in Hnb. discriminate. }
  split; [split_and!; [reflexivity|reflexivity|exact Hne]|].
  apply (accumulate_shape_asserted 1%positive 2%positive two_band_image sweep_image
           two_band_input); [reflexivity|reflexivity|exact Hne].
Defined.

Section StitchFailures.
Context {F : Type} `{Scalar F} `{Luminance F}.

(** A loop of state-preserving iterations has no result when one of its
    iterations has none. *)
Lemma fold_from_none {A} (body : Z → A → M F A) s j n :
  (∀ i b, stateless (body i b)) → (∀ b, body j b s = None) →
  ∀ i a, i ≤ j < i + Z.of_nat n → fold_from i n body a s = None.
Proof.
  intros Hst Hj. induction n as [|n IH]; intros i a Hi; [lia|].
  rewrite fold_from_S. unfold mbind, M_bind.
  destruct (body i a s) as [[a' s']|] eqn:E; [|done].
  rewrite (Hst i a s a' s' E).
  destruct (decide (i = j)) as [->|Hne]; [by rewrite Hj in E|].
  apply IH. lia.
Qed.

Lemma assert_same_shape_none (images : list loc) count w h nb i p (im : heman_image F) s :
  1 ≤ i < count → images !! Z.to_nat i = Some p → mem s !! p = Some im →
  ¬ (width im = w ∧ height im = h ∧ nbands im = nb) →
  assert_same_shape images count w h nb s = None.
Proof.
  intros Hi Ep Em Hne. unfold assert_same_shape, for_range, for_fold.
  apply (fold_from_none _ s i).
  - intros j []. apply stateless_bind; [apply stateless_index|]. intros q.
    apply stateless_bind; [apply stateless_deref|]. intros hi.
    repeat (apply stateless_bind; [apply stateless_assert|intros ?]).
    apply stateless_assert.
  - intros []. assert (Hi0 : 0 ≤ i) by lia.
    rewrite (bind_some _ _ _ _ _ (index_some _ _ _ _ Hi0 Ep)).
    rewrite (bind_some _ _ _ _ _ (deref_some _ _ _ Em)).
    destruct (decide (width im = w)) as [Hw|Hw]; [|by apply bind_none, assert_false].
    rewrite (bind_some _ _ _ _ _ (assert_true _ _ Hw)).
    destruct (decide (height im = h)) as [Hh|Hh]; [|by apply bind_none, assert_false].
    rewrite (bind_some _ _ _ _ _ (assert_true _ _ Hh)).
    apply assert_false. tauto.
  - lia.
Qed.

End StitchFailures.

(** X3: both stitch operators have no result when [count] is not positive,
    and when some image [images[i]], [1 <= i < count], differs from
    [images[0]] in width, height or band count: an assertion fails. *)
Theorem stitch_shape_asserted {F : Type} `{Scalar F}
    (images : list loc) (count : Z) (s : state F) :
  (count ≤ 0 →
     heman_ops_stitch_horizontal images count s = None ∧
     heman_ops_stitch_vertical images count s = None) ∧
  (∀ p0 h0 i p im,
     images !! 0%nat = Some p0 → mem s !! p0 = Some h0 →
     1 ≤ i < count → images !! Z.to_nat i = Some p → mem s !! p = Some im →
     ¬ (width im = width h0 ∧ height im = height h0 ∧ nbands im = nbands h0) →
     heman_ops_stitch_horizontal images count s = None ∧
     heman_ops_stitch_vertical images count s = None).
Proof.
  split.
  - intros Hc. split.
    + unfold heman_ops_stitch_horizontal. apply bind_none, assert_false. lia.
    + unfold heman_ops_stitch_vertical. apply bind_none, assert_false. lia.
  - intros p0 h0 i p im E0 Em0 Hi Ep Em Hne.
    assert (Hc : count > 0) by lia.
    split.
    + unfold heman_ops_stitch_horizontal.
      rewrite (bind_some _ _ _ _ _ (assert_true _ _ Hc)).
      rewrite (bind_some _ _ _ _ _ (index_some _ _ _ _ (Z.le_refl 0) E0)).
      rewrite (bind_some _ _ _ _ _ (deref_some _ _ _ Em0)).
      by apply bind_none, (assert_same_shape_none _ _ _ _ _ i p im).
    + unfold heman_ops_stitch_vertical.
      rewrite (bind_some _ _ _ _ _ (assert_true _ _ Hc)).
      rewrite (bind_some _ _ _ _ _ (index_some _ _ _ _ (Z.le_refl 0) E0)).
      rewrite (bind_some _ _ _ _ _ (deref_some _ _ _ Em0)).
      by apply bind_none, (assert_same_shape_none _ _ _ _ _ i p im).
Qed.

Lemma stitch_shape_asserted_witness :
  (0 ≤ 0 ∧
   mem two_band_input !! 1%positive = Some two_band_image ∧
   mem two_band_input !! 2%positive = Some sweep_image ∧
   ¬ (width sweep_image = width two_band_image ∧
      height sweep_image = height two_band_image ∧
      nbands sweep_image = nbands two_band_image)) ∧
  (heman_ops_stitch_horizontal [1%positive; 2%positive] 0 two_band_input = None ∧
   heman_ops_stitch_vertical [1%positive; 2%positive] 0 two_band_input = None) ∧
  heman_ops_stitch_horizontal [1%positive; 2%positive] 2 two_band_input = None ∧
  heman_ops_stitch_vertical [1%positive; 2%positive] 2 two_band_input = None.
Proof.
  assert (Hne : ¬ (width sweep_image = width two_band_image ∧
                   height sweep_image = height two_band_image ∧
                   nbands sweep_image = nbands two_band_image)).
  { intros (_ & Hh & _). vm_compute in Hh. discriminate. }
  split; [exact (conj (Z.le_refl 0) (conj eq_refl (conj eq_refl Hne)))|].
  split.
  - exact (proj1 (stitch_shape_asserted [1%positive; 2%positive] 0 two_band_input)
             (Z.le_refl 0)).
  - destruct (stitch_shape_asserted [1%positive; 2%positive] 2 two_band_input) as [_ Hmis].
    apply (Hmis 1%positive two_band_image 1 2%positive sweep_image);
      [reflexivity|reflexivity|lia|reflexivity|reflexivity|exact Hne].
Defined.

(** X4: [heman_ops_step] on a single-band image whose number of samples
    is within the range of [int]: a new single-band image of the same
    dimensions whose samples are 1 where the input sample is [>= threshold]
    and 0 elsewhere. *)
Theorem step_spec {F : Type} `{Scalar F}
    (hmap : loc) (h : heman_image F) (threshold : F) (s : state F) :
  mem s !! hmap = Some h → wf_image h → nbands h = 1 →
  in_int (width h * height h) →
  ∃ r s' out,
    heman_ops_step hmap threshold s = Some (r, s') ∧
    mem s !! r = None ∧ mem s' !! r = Some out ∧
    width out = width h ∧ height out = height h ∧ nbands out = 1 ∧
    Z.of_nat (length (data out)) = width h * height h ∧
    ∀ i, 0 ≤ i < width h * height h →
      ∃ v, sample h i = Some v ∧
           sample out i = Some (if fge v threshold then of_int 1 else of_int 0).
Proof.
  intros E Hwf Hnb _. pose proof Hwf as (Hw & Hh & _).
  eexists _, _, _. split; [by apply step_run|].
  split; [apply fresh_None|]. split; [apply lookup_insert_eq|].
  split_and!; [done..| |].
  - simpl. rewrite length_fmap. apply length_fmap_seqZ. nia.
  - intros i Hi. exists (get h i). split; [apply get_sample; [done|nia]|].
    by rewrite sample_table.
Qed.

Lemma step_spec_witness :
  (mem heights_input !! 1%positive = Some hill_image ∧ wf_image hill_image ∧
   nbands hill_image = 1 ∧ in_int (width hill_image * height hill_image)) ∧
  ∃ r s' out,
    heman_ops_step 1%positive (f32_of_Z 2) heights_input = Some (r, s') ∧
    mem heights_input !! r = None ∧ mem s' !! r = Some out ∧
    width out = width hill_image ∧ height out = height hill_image ∧ nbands out = 1 ∧
    Z.of_nat (length (data out)) = width hill_image * height hill_image ∧
    ∀ i, 0 ≤ i < width hill_image * height hill_image →
      ∃ v, sample hill_image i = Some v ∧
           sample out i = Some (if fge v (f32_of_Z 2) then of_int 1 else of_int 0).
Proof.
  assert (Hwf : wf_image hill_image) by (apply (bool_decide_unpack _); vm_compute; exact I).
  assert (Hint : in_int (width hill_image * height hill_image)) by int_range.
  split; [exact (conj eq_refl (conj Hwf (conj eq_refl Hint)))|].
  exact (step_spec 1%positive hill_image (f32_of_Z 2) heights_input
           eq_refl Hwf eq_refl Hint).
Defined.

(** *** [heman_ops_accumulate] *)

(** X5: what [heman_ops_accumulate] does to [dst], for images of identical
    shape and any band count whose [width * height] is within the range of
    [int], [src] being [dst] itself or not: the first [width * height]
    samples of [dst] become [dst[i] + src[i]], every later sample of [dst]
    keeps its value, and the dimensions and the buffer length of [dst] do
    not change. *)
Theorem accumulate_effect {F : Type} `{Scalar F}
    (dst src : loc) (d si : heman_image F) (s : state F) :
  mem s !! dst = Some d → mem s !! src = Some si →
  wf_image d → wf_image si → same_shape d si →
  in_int (width d * height d) →
  ∃ s' d',
    heman_ops_accumulate dst src s = Some ((), s') ∧
    mem s' !! dst = Some d' ∧
    width d' = width d ∧ height d' = height d ∧ nbands d' = nbands d ∧
    length (data d') = length (data d) ∧
    (∀ i, 0 ≤ i < width d * height d →
       ∃ a b, sample d i = Some a ∧ sample si i = Some b ∧
              sample d' i = Some (fadd a b)) ∧
    (∀ i, width d * height d ≤ i → sample d' i = sample d i).
Proof.
  intros Ed Es Hd Hs Hshape _. pose proof Hd as (Hw & Hh & Hnb & Hlen & _).
  eexists _, _. split; [by apply accumulate_result|].
  split; [apply lookup_insert_eq|].
  split_and!; [done..| | |].
  - destruct (wf_accumulated d si Hd) as (_ & _ & _ & Hlen' & _).
    change (width (accumulated d si)) with (width d) in Hlen'.
    change (height (accumulated d si)) with (height d) in Hlen'.
    change (nbands (accumulated d si)) with (nbands d) in Hlen'. lia.
  - intros i Hi. exists (get d i), (get si i).
    destruct Hshape as (E1 & E2 & E3).
    split_and!.
    + apply get_sample; [done|nia].
    + apply get_sample; [done|]. rewrite <- E1, <- E2, <- E3. nia.
    + by rewrite sample_accumulated_front.
  - intros i Hi. apply sample_accumulated_rest. nia.
Qed.

Lemma accumulate_effect_witness :
  (mem big_input !! 1%positive = Some big_dst ∧ mem big_input !! 1%positive = Some big_dst ∧
   wf_image big_dst ∧ same_shape big_dst big_dst ∧
   in_int (width big_dst * height big_dst)) ∧
  ∃ s' d',
    heman_ops_accumulate 1%positive 1%positive big_input = Some ((), s') ∧
    mem s' !! 1%positive = Some d' ∧
    width d' = width big_dst ∧ height d' = height big_dst ∧ nbands d' = nbands big_dst ∧
    length (data d') = length (data big_dst) ∧
    (∀ i, 0 ≤ i < width big_dst * height big_dst →
       ∃ a b, sample big_dst i = Some a ∧ sample big_dst i = Some b ∧
              sample d' i = Some (fadd a b)) ∧
    (∀ i, width big_dst * height big_dst ≤ i → sample d' i = sample big_dst i).
Proof.
  assert (Hd : wf_image big_dst) by (apply (bool_decide_unpack _); vm_compute; exact I).
  assert (Hsh : same_shape big_dst big_dst) by (split_and!; reflexivity).
  assert (Hint : in_int (width big_dst * height big_dst)) by int_range.
  split; [exact (conj eq_refl (conj eq_refl (conj Hd (conj Hsh Hint))))|].
  exact (accumulate_effect 1%positive 1%positive big_dst big_dst big_input
           eq_refl eq_refl Hd Hd Hsh Hint).
Defined.

(** *** [heman_ops_stitch_vertical] *)

(** X7: for [count >= 1] images of one shape, with [height * count] and
    the number of samples of a tile within the range of [int],
    [heman_ops_stitch_vertical] returns a new image of the same width and
    bands and of height [height * count], whose rows
    [i * height .. (i + 1) * height - 1] are a sample-for-sample copy of
    image [i]; each sample of the result is written exactly once. *)
Theorem stitch_vertical_spec {F : Type} `{Scalar F}
    (images : list loc) (imgs : list (heman_image F)) (count w h nb : Z) (s : state F) :
  tiles s images imgs w h nb → count = Z.of_nat (length images) → 0 < count →
  in_int (h * count) → in_int (w * h * nb) →
  ∃ r s' out written,
    heman_ops_stitch_vertical images count s = Some (r, s') ∧
    mem s !! r = None ∧ mem s' !! r = Some out ∧
    width out = w ∧ height out = h * count ∧ nbands out = nb ∧
    Z.of_nat (length (data out)) = w * (h * count) * nb ∧
    (∀ i im x y b,
       imgs !! i = Some im → 0 ≤ x < w → 0 ≤ y < h → 0 ≤ b < nb →
       ∃ v, texel im x y b = Some v ∧ texel out x (Z.of_nat i * h + y) b = Some v) ∧
    wlog s' = wlog s ++ written ∧ NoDup written ∧
    (∀ p off, (p, off) ∈ written ↔ p = r ∧ 0 ≤ off < w * (h * count) * nb).
Proof.
  intros Ht Hcount Hc _ _.
  destruct (tiles_lookup s images imgs w h nb 0 Ht)
    as (_ & h0 & _ & _ & _ & (Hw & Hh & Hb & _) & Hw0 & Hh0 & Hb0); [lia|].
  rewrite Hw0 in Hw. rewrite Hh0 in Hh. rewrite Hb0 in Hb.
  eexists _, _, _, _. split; [by apply (stitch_vertical_run s images imgs)|].
  split; [apply fresh_None|]. split; [apply lookup_insert_eq|].
  split_and!; [done..| | |done|apply fill_log_once|apply fill_log_once].
  - simpl. rewrite length_fmap. apply length_fmap_seqZ. nia.
  - intros i im x y b Eim Hx Hy Hb'.
    assert (Hi : 0 ≤ Z.of_nat i < Z.of_nat (length images)).
    { destruct Ht as [H2 _]. rewrite (Forall2_length _ _ _ H2).
      apply lookup_lt_Some in Eim. lia. }
    destruct (tiles_lookup s images imgs w h nb (Z.of_nat i) Ht)
      as (p & im' & _ & Eim' & _ & Hwf & Hwi & Hhi & Hbi); [done|].
    rewrite Nat2Z.id, Eim in Eim'. injection Eim' as <-.
    exists (get_texel im x y b). split; [apply texel_get; [done|lia..]|].
    unfold texel. simpl.
    set (k := (y * w + x) * nb + b).
    assert (Hk : 0 ≤ k < w * h * nb).
    { subst k. assert (y * w + x + 1 ≤ h * w) by nia.
      assert ((y * w + x + 1) * nb ≤ h * w * nb) by (apply Z.mul_le_mono_nonneg_r; lia).
      nia. }
    replace (((Z.of_nat i * h + y) * w + x) * nb + b)
      with (Z.of_nat i * (w * h * nb) + k) by (subst k; lia).
    rewrite sample_table.
    + unfold stitch_vertical_value.
      replace ((Z.of_nat i * (w * h * nb) + k) `div` (w * h * nb)) with (Z.of_nat i)
        by (apply (Z.div_unique _ (w * h * nb) _ k); lia).
      replace ((Z.of_nat i * (w * h * nb) + k) `mod` (w * h * nb)) with k
        by (apply (Z.mod_unique _ (w * h * nb) (Z.of_nat i)); lia).
      rewrite Nat2Z.id, Eim. unfold get_texel. by rewrite Hwi, Hbi.
    + assert (Z.of_nat i + 1 ≤ count) by lia.
      assert ((Z.of_nat i + 1) * (w * h * nb) ≤ count * (w * h * nb))
        by (apply Z.mul_le_mono_nonneg_r; nia).
      nia.
Qed.

Lemma stitch_vertical_spec_witness :
  (tiles big_input [1%positive; 2%positive]
     [big_dst; big_a] 1 1 1 ∧
   2 = Z.of_nat (length [1%positive; 2%positive]) ∧ 0 < 2 ∧
   in_int (1 * 2) ∧ in_int (1 * 1 * 1)) ∧
  ∃ r s' out written,
    heman_ops_stitch_vertical [1%positive; 2%positive] 2 big_input = Some (r, s') ∧
    mem big_input !! r = None ∧ mem s' !! r = Some out ∧
    width out = 1 ∧ height out = 1 * 2 ∧ nbands out = 1 ∧
    Z.of_nat (length (data out)) = 1 * (1 * 2) * 1 ∧
    (∀ i im x y b,
       [big_dst; big_a] !! i = Some im →
       0 ≤ x < 1 → 0 ≤ y < 1 → 0 ≤ b < 1 →
       ∃ v, texel im x y b = Some v ∧ texel out x (Z.of_nat i * 1 + y) b = Some v) ∧
    wlog s' = wlog big_input ++ written ∧ NoDup written ∧
    (∀ p off, (p, off) ∈ written ↔ p = r ∧ 0 ≤ off < 1 * (1 * 2) * 1).
Proof.
  assert (Ht : tiles big_input [1%positive; 2%positive]
                 [big_dst; big_a] 1 1 1).
  { split.
    - repeat constructor.
    - repeat (apply Forall_cons; split;
                [split_and!;
                   [apply (bool_decide_unpack _); vm_compute; exact I|reflexivity..]|]).
      apply Forall_nil. done. }
  assert (Hpos : 0 < 2) by lia.
  assert (Hi1 : in_int (1 * 2)) by int_range.
  assert (Hi2 : in_int (1 * 1 * 1)) by int_range.
  split; [exact (conj Ht (conj eq_refl (conj Hpos (conj Hi1 Hi2))))|].
  exact (stitch_vertical_spec [1%positive; 2%positive]
           [big_dst; big_a] 2 1 1 1 big_input
           Ht eq_refl Hpos Hi1 Hi2).
Defined.

(** *** All operators: the shape of a run *)

Section RunShape.
Context {F : Type} `{Scalar F} `{Luminance F}.

(** Every valid call that returns an image leaves the store extended by
    that image alone, given by a table of [w * h * nb] samples, and logs
    the stores of one complete fill of it, after the stores [before] into
    an image that is neither the result nor an image of the caller. *)
Lemma run_call_new (s : state F) (c : @call F) :
  valid_call s c → mutated c = None →
  ∃ r w h nb (tab : Z → F) before,
    run_call c s
    = Some (Some r,
            mk_state (<[r := img_of w h nb (tab <$> seqZ 0 (w * h * nb))]> (mem s))
                     (wlog s ++ before ++ fill_log r (w * h * nb))) ∧
    mem s !! r = None ∧ 0 < w ∧ 0 < h ∧ 0 < nb ∧
    NoDup before ∧ (∀ p off, (p, off) ∈ before → p ≠ r ∧ mem s !! p = None).
Proof.
  assert (Hnil : NoDup (@nil (loc * Z)) ∧
                 ∀ r p off, (p, off) ∈ @nil (loc * Z) → p ≠ r ∧ mem s !! p = None).
  { split; [constructor|]. intros r p off Hin. by apply elem_of_nil in Hin. }
  destruct Hnil as [Hnd Hno].
  destruct c as [hmap th|hmap|images count|images count|source minv maxv|hm|dst src|img ec];
    simpl; intros Hv Hm; try discriminate.
  - destruct Hv as (h & E & Hwf & Hnb & _). pose proof Hwf as (Hw & Hh & _).
    eexists _, (width h), (height h), 1, _, [].
    rewrite (bind_some _ _ _ _ _ (step_run _ _ _ _ E Hwf Hnb)).
    rewrite !Z.mul_1_r. split; [reflexivity|].
    split_and!; [apply fresh_None|done..|lia|done|apply Hno].
  - destruct Hv as (h & E & Hwf & Hnb & _). pose proof Hwf as (Hw & Hh & _).
    eexists _, (height h), 1, 1, _, [].
    rewrite (bind_some _ _ _ _ _ (sweep_run _ _ _ E Hwf Hnb)).
    rewrite !Z.mul_1_r. split; [reflexivity|].
    split_and!; [apply fresh_None|done|lia|lia|done|apply Hno].
  - destruct Hv as (imgs & w & h & nb & Ht & Hc & Hpos & _).
    destruct (tiles_lookup s images imgs w h nb 0 Ht)
      as (_ & h0 & _ & _ & _ & (Hw & Hh & Hb & _) & Hw0 & Hh0 & Hb0); [lia|].
    rewrite Hw0 in Hw. rewrite Hh0 in Hh. rewrite Hb0 in Hb.
    eexists _, (w * count), h, nb, _, [].
    rewrite (bind_some _ _ _ _ _ (stitch_horizontal_run _ _ _ _ _ _ _ Ht Hc Hpos)).
    split; [reflexivity|].
    split_and!; [apply fresh_None|nia|done|done|done|apply Hno].
  - destruct Hv as (imgs & w & h & nb & Ht & Hc & Hpos & _).
    destruct (tiles_lookup s images imgs w h nb 0 Ht)
      as (_ & h0 & _ & _ & _ & (Hw & Hh & Hb & _) & Hw0 & Hh0 & Hb0); [lia|].
    rewrite Hw0 in Hw. rewrite Hh0 in Hh. rewrite Hb0 in Hb.
    eexists _, w, (h * count), nb, _, [].
    rewrite (bind_some _ _ _ _ _ (stitch_vertical_run _ _ _ _ _ _ _ Ht Hc Hpos)).
    split; [reflexivity|].
    split_and!; [apply fresh_None|done|nia|done|done|apply Hno].
  - destruct Hv as (h & E & Hwf & _). pose proof Hwf as (Hw & Hh & Hb & _).
    eexists _, (width h), (height h), (nbands h), _, [].
    rewrite (bind_some _ _ _ _ _ (normalize_run _ minv maxv _ _ E Hwf)).
    split; [reflexivity|].
    split_and!; [apply fresh_None|done..|apply Hno].
  - destruct Hv as (h & E & Hwf & Hnb & _). pose proof Hwf as (Hw & Hh & _).
    eexists _, (width h), (height h), 1, _, [].
    rewrite (bind_some _ _ _ _ _ (laplacian_run _ _ _ E Hwf Hnb)).
    rewrite !Z.mul_1_r. split; [reflexivity|].
    split_and!; [apply fresh_None|done..|lia|done|apply Hno].
  - destruct Hv as (im & E & Hwf & Hnb & _). pose proof Hwf as (Hw & Hh & _).
    eexists _, (width im), (height im), 3, _, (fill_log _ (width im * height im)).
    rewrite (bind_some _ _ _ _ _ (sobel_run _ ec _ _ E Hwf Hnb)).
    rewrite <- app_assoc. split; [reflexivity|].
    split_and!; [apply fresh_None|done..|lia|apply fill_log_once|].
    intros p off Hin. apply fill_log_once in Hin as [-> _]. split.
    + intros Heq.
      pose proof (fresh_None (created s (width im) (height im) 3)) as Hg.
      rewrite Heq in Hg. unfold created in Hg. simpl in Hg.
      by rewrite lookup_insert_eq in Hg.
    + pose proof (fresh_None (created s (width im) (height im) 3)) as Hg.
      unfold created in Hg at 1. simpl in Hg.
      apply lookup_insert_None in Hg. tauto.
Qed.

Lemma wf_table w h nb (tab : Z → F) :
  0 < w → 0 < h → 0 < nb → wf_image (img_of w h nb (tab <$> seqZ 0 (w * h * nb))).
Proof. intros. apply wf_img_of; [done..|]. apply length_fmap_seqZ. nia. Qed.

End RunShape.

(** X8: the operators keep the store within the data model.  After a valid
    call, one whose [int] products are in range, the image returned is
    well-formed (positive dimensions, a buffer of
    [width * height * nbands] samples, all initialised), and every image
    that was well-formed before the call is well-formed after it, the
    destination of an accumulate included. *)
Theorem results_well_formed {F : Type} `{Scalar F} `{Luminance F}
    (s : state F) (c : @call F) :
  valid_call s c →
  ∃ res s',
    run_call c s = Some (res, s') ∧
    (∀ r, res = Some r → ∃ out, mem s' !! r = Some out ∧ wf_image out) ∧
    (∀ p img, mem s !! p = Some img → wf_image img →
       ∃ img', mem s' !! p = Some img' ∧ wf_image img').
Proof.
  intros Hv. destruct (mutated c) as [dst|] eqn:Hm.
  - destruct c; try discriminate. injection Hm as ->.
    destruct Hv as (d & si & Ed & Es & Hd & Hs & Hshape & _). simpl.
    eexists _, _.
    rewrite (bind_some _ _ _ _ _ (accumulate_result _ _ _ _ _ Ed Es Hd Hs Hshape)).
    split; [reflexivity|]. split; [done|].
    intros p img Ep Hwf. simpl. destruct (decide (dst = p)) as [->|Hne].
    + rewrite lookup_insert_eq. eexists. split; [done|]. by apply wf_accumulated.
    + rewrite lookup_insert_ne by done. by exists img.
  - destruct (run_call_new s c Hv Hm)
      as (r & w & h & nb & tab & before & Hrun & Hr & Hw & Hh & Hnb & _).
    eexists _, _. split; [exact Hrun|]. split.
    + intros r' [= <-]. simpl. rewrite lookup_insert_eq. eexists. split; [done|].
      by apply wf_table.
    + intros p img Ep Hwf. simpl. exists img. split; [|done].
      rewrite lookup_insert_ne; [done|]. intros ->. congruence.
Qed.

Lemma results_well_formed_witness :
  valid_call edge_input (Sobel 1%positive f32_red) ∧
  ∃ res s',
    run_call (Sobel 1%positive f32_red) edge_input = Some (res, s') ∧
    (∀ r, res = Some r → ∃ out, mem s' !! r = Some out ∧ wf_image out) ∧
    (∀ p img, mem edge_input !! p = Some img → wf_image img →
       ∃ img', mem s' !! p = Some img' ∧ wf_image img').
Proof.
  assert (Hv : valid_call edge_input (Sobel 1%positive f32_red)).
  { exists edge_image.
    split_and!; try reflexivity; try int_range.
    apply (bool_decide_unpack _); vm_compute; exact I. }
  split; [exact Hv|].
  exact (results_well_formed edge_input (Sobel 1%positive f32_red) Hv).
Defined.

(** X9: no operator stores to the same sample twice, and an operator that
    returns an image stores to every sample of it: in the log of a valid
    call, one whose [int] products are in range, no (image, offset) pair
    occurs twice, and the offsets logged for the returned image are exactly
    those of its buffer.  This is what makes the rows of the
    [omp parallel for] loops independent. *)
Theorem stores_once {F : Type} `{Scalar F} `{Luminance F}
    (s : state F) (c : @call F) :
  valid_call s c →
  ∃ res s' written,
    run_call c s = Some (res, s') ∧
    wlog s' = wlog s ++ written ∧ NoDup written ∧
    (∀ r out, res = Some r → mem s' !! r = Some out →
       ∀ off, (r, off) ∈ written ↔ 0 ≤ off < Z.of_nat (length (data out))).
Proof.
  intros Hv. destruct (mutated c) as [dst|] eqn:Hm.
  - destruct c; try discriminate. injection Hm as ->.
    destruct Hv as (d & si & Ed & Es & Hd & Hs & Hshape & _). simpl.
    eexists _, _, _.
    rewrite (bind_some _ _ _ _ _ (accumulate_result _ _ _ _ _ Ed Es Hd Hs Hshape)).
    split; [reflexivity|]. split; [done|]. split; [apply fill_log_once|done].
  - destruct (run_call_new s c Hv Hm)
      as (r & w & h & nb & tab & before & Hrun & Hr & Hw & Hh & Hnb & Hnd & Hbefore).
    eexists _, _, _. split; [exact Hrun|]. split; [done|]. split.
    + apply NoDup_app. split_and!; [done| |apply fill_log_once].
      intros [p off] Hin Hin'. apply fill_log_once in Hin' as [-> _].
      by destruct (Hbefore r off Hin).
    + intros r' out [= <-]. simpl. rewrite lookup_insert_eq. intros [= <-] off.
      simpl. rewrite length_fmap, length_fmap_seqZ by nia.
      rewrite elem_of_app. split.
      * intros [Hin|Hin]; [by destruct (Hbefore r off Hin)|].
        by apply fill_log_once in Hin as [_ ?].
      * intros Hoff. right. by apply fill_log_once.
Qed.

Lemma stores_once_witness :
  valid_call edge_input (Sobel 1%positive f32_red) ∧
  ∃ res s' written,
    run_call (Sobel 1%positive f32_red) edge_input = Some (res, s') ∧
    wlog s' = wlog edge_input ++ written ∧ NoDup written ∧
    (∀ r out, res = Some r → mem s' !! r = Some out →
       ∀ off, (r, off) ∈ written ↔ 0 ≤ off < Z.of_nat (length (data out))).
Proof.
  assert (Hv : valid_call edge_input (Sobel 1%positive f32_red)).
  { exists edge_image.
    split_and!; try reflexivity; try int_range.
    apply (bool_decide_unpack _); vm_compute; exact I. }
  split; [exact Hv|].
  exact (stores_once edge_input (Sobel 1%positive f32_red) Hv).
Defined.

(** *** [heman_ops_laplacian] on level ground *)

Section TexelFacts.
Context {F : Type} `{Scalar F}.

Lemma get_texel_of_texel (img : heman_image F) x y b v :
  texel img x y b = Some v → get_texel img x y b = v.
Proof. unfold texel, get_texel, get. by intros ->. Qed.

Lemma texel_laplacian_result (hm : heman_image F) x y :
  0 < width hm → 0 < height hm → 0 ≤ x < width hm → 0 ≤ y < height hm →
  texel (img_of (width hm) (height hm) 1
           (laplacian_value hm <$> seqZ 0 (width hm * height hm))) x y 0
  = Some (laplacian_pixel hm x y).
Proof.
  intros Hw Hh Hx Hy. unfold texel. simpl. rewrite Z.mul_1_r, Z.add_0_r.
  rewrite sample_table by nia. by rewrite laplacian_value_at.
Qed.

End TexelFacts.

(** X10: the gradient energy of a level heightmap is zero: when all
    samples of the input are equal to one finite number, and their count is
    within the range of [int], every sample of the result of
    [heman_ops_laplacian] is 0. *)
Theorem laplacian_flat {F : Type} `{FloatLaws F}
    (heightmap : loc) (hm : heman_image F) (c : F) (s : state F) :
  mem s !! heightmap = Some hm → wf_image hm → nbands hm = 1 →
  in_int (width hm * height hm) → finite c →
  (∀ x y, 0 ≤ x < width hm → 0 ≤ y < height hm → texel hm x y 0 = Some c) →
  ∃ r s' out,
    heman_ops_laplacian heightmap s = Some (r, s') ∧ mem s' !! r = Some out ∧
    ∀ x y, 0 ≤ x < width hm → 0 ≤ y < height hm → texel out x y 0 = Some (of_int 0).
Proof.
  intros E Hwf Hnb _ Hc Hflat. pose proof Hwf as (Hw & Hh & _).
  eexists _, _, _. split; [by apply laplacian_run|].
  split; [apply lookup_insert_eq|].
  intros x y Hx Hy. rewrite texel_laplacian_result by done. f_equal.
  unfold laplacian_pixel.
  rewrite !(get_texel_of_texel hm _ _ 0 c) by (apply Hflat; lia).
  by apply energy_flat.
Qed.

Lemma laplacian_flat_witness :
  (mem heights_input !! 3%positive = Some plain_image ∧
   wf_image plain_image ∧ nbands plain_image = 1 ∧
   in_int (width plain_image * height plain_image) ∧ finite (f32_of_Z 5) ∧
   (∀ x y, 0 ≤ x < width plain_image → 0 ≤ y < height plain_image →
      texel plain_image x y 0 = Some (f32_of_Z 5))) ∧
  ∃ r s' out,
    heman_ops_laplacian 3%positive heights_input = Some (r, s') ∧
    mem s' !! r = Some out ∧
    ∀ x y, 0 ≤ x < width plain_image → 0 ≤ y < height plain_image →
           texel out x y 0 = Some (of_int 0).
Proof.
  assert (Hwf : wf_image plain_image)
    by (apply (bool_decide_unpack _); vm_compute; exact I).
  assert (Hint : in_int (width plain_image * height plain_image)) by int_range.
  assert (Hfin : finite (f32_of_Z 5)) by reflexivity.
  assert (Hflat : ∀ x y, 0 ≤ x < width plain_image → 0 ≤ y < height plain_image →
            texel plain_image x y 0 = Some (f32_of_Z 5)).
  { intros x y Hx Hy. simpl in Hx, Hy.
    assert (Cx : x = 0 ∨ x = 1) by lia. assert (Cy : y = 0 ∨ y = 1) by lia.
    destruct Cx as [-> | ->], Cy as [-> | ->]; reflexivity. }
  split; [exact (conj eq_refl (conj Hwf (conj eq_refl (conj Hint (conj Hfin Hflat)))))|].
  exact (laplacian_flat 3%positive plain_image (f32_of_Z 5) heights_input
           eq_refl Hwf eq_refl Hint Hfin Hflat).
Defined.

(** *** [heman_ops_sobel] *)

(** X13: what [heman_ops_sobel] returns for a 3-band image whose pixel
    count is within the range of [int]: a new 3-band image of the
    dimensions of its input in which each band [c] of a pixel becomes
    [c + e * (0 - c)], where [e] is 1 if the gradient test of the code
    classifies the pixel as an edge and 0 if not, whatever [edge_color]
    is. *)
Theorem sobel_spec {F : Type} `{Scalar F} `{Luminance F}
    (img : loc) (edge_color : heman_color F) (im : heman_image F) (s : state F) :
  mem s !! img = Some im → wf_image im → nbands im = 3 →
  in_int (width im * height im) →
  ∃ r s' out,
    heman_ops_sobel img edge_color s = Some (r, s') ∧
    mem s !! r = None ∧ mem s' !! r = Some out ∧
    width out = width im ∧ height out = height im ∧ nbands out = 3 ∧
    ∀ x y b, 0 ≤ x < width im → 0 ≤ y < height im → 0 ≤ b < 3 →
      ∃ c, texel im x y b = Some c ∧
           texel out x y b
           = Some (fadd c (fmul (if is_edge_pixel im x y then of_int 1 else of_int 0)
                               (fsub (of_int 0) c))).
Proof.
  intros E Hwf Hnb _.
  destruct (sobel_pixels img edge_color im s E Hwf Hnb)
    as (r & s' & out & Hrun & Hr & Hout & Hw & Hh & Hb & Hpix).
  exists r, s', out. split_and!; [done..|].
  intros x y b Hx Hy Hb'.
  destruct (Hpix x y b Hx Hy Hb') as (c & Ec & Eo). by exists c.
Qed.

Lemma sobel_spec_witness :
  (mem edge_input !! 1%positive = Some edge_image ∧ wf_image edge_image ∧
   nbands edge_image = 3 ∧ in_int (width edge_image * height edge_image)) ∧
  ∃ r s' out,
    heman_ops_sobel 1%positive f32_red edge_input = Some (r, s') ∧
    mem edge_input !! r = None ∧ mem s' !! r = Some out ∧
    width out = width edge_image ∧ height out = height edge_image ∧ nbands out = 3 ∧
    ∀ x y b, 0 ≤ x < width edge_image → 0 ≤ y < height edge_image → 0 ≤ b < 3 →
      ∃ c, texel edge_image x y b = Some c ∧
           texel out x y b
           = Some (fadd c (fmul (if is_edge_pixel edge_image x y
                                 then of_int 1 else of_int 0)
                               (fsub (of_int 0) c))).
Proof.
  assert (Hwf : wf_image edge_image) by (apply (bool_decide_unpack _); vm_compute; exact I).
  assert (Hint : in_int (width edge_image * height edge_image)) by int_range.
  split; [exact (conj eq_refl (conj Hwf (conj eq_refl Hint)))|].
  exact (sobel_spec 1%positive f32_red edge_image edge_input eq_refl Hwf eq_refl Hint).
Defined.

(** *** Composition *)

(** X15: in binary32, [heman_ops_normalize_f32] with the bounds 0 and 1
    applied to the result of [heman_ops_step] returns a second new image
    with the same samples: a mask of zeros and ones is already normalized.
    Both images are in the store afterwards, under different names.  The
    number of samples is within the range of [int]. *)
Theorem step_then_normalize
    (hmap : loc) (h : heman_image f32) (threshold : f32) (s : state f32) :
  mem s !! hmap = Some h → wf_image h → nbands h = 1 →
  in_int (width h * height h) →
  ∃ r1 s1 r2 s2 out1 out2,
    heman_ops_step hmap threshold s = Some (r1, s1) ∧
    heman_ops_normalize_f32 r1 (of_int 0) (of_int 1) s1 = Some (r2, s2) ∧
    r1 ≠ r2 ∧ mem s2 !! r1 = Some out1 ∧ mem s2 !! r2 = Some out2 ∧
    same_shape out1 out2 ∧
    ∀ i, 0 ≤ i < width h * height h →
      is_Some (sample out1 i) ∧ sample out2 i = sample out1 i.
Proof.
  intros E Hwf Hnb _. pose proof Hwf as (Hw & Hh & _).
  set (r1 := fresh (dom (mem s))).
  set (out1 := img_of (width h) (height h) 1
                 (step_value h threshold <$> seqZ 0 (width h * height h))).
  set (s1 := mk_state (<[r1 := out1]> (mem s)) (wlog s ++ fill_log r1 (width h * height h))).
  assert (Hrun1 : heman_ops_step hmap threshold s = Some (r1, s1)) by by apply step_run.
  assert (E1 : mem s1 !! r1 = Some out1) by apply lookup_insert_eq.
  assert (Hwf1 : wf_image out1).
  { subst out1. apply wf_img_of; [done|done|lia|]. rewrite length_fmap_seqZ; nia. }
  pose proof (normalize_run r1 (of_int 0) (of_int 1) out1 s1 E1 Hwf1) as Hrun2.
  simpl in Hrun2.
  eexists r1, s1, _, _, out1, _. split; [exact Hrun1|]. split; [exact Hrun2|].
  split; [apply (fresh_ne s1 r1 out1 E1)|].
  split; [simpl; rewrite lookup_insert_ne by apply not_eq_sym, (fresh_ne s1 r1 out1 E1);
          apply lookup_insert_eq|].
  split; [apply lookup_insert_eq|]. split; [done|].
  intros i Hi. subst out1. rewrite !sample_table by lia.
  split; [by eexists|]. f_equal.
  unfold normalize_value, get. rewrite sample_table by lia.
  unfold step_value. by destruct (fge _ _).
Qed.

Lemma step_then_normalize_witness :
  (mem heights_input !! 1%positive = Some hill_image ∧ wf_image hill_image ∧
   nbands hill_image = 1 ∧ in_int (width hill_image * height hill_image)) ∧
  ∃ r1 s1 r2 s2 out1 out2,
    heman_ops_step 1%positive (f32_of_Z 2) heights_input = Some (r1, s1) ∧
    heman_ops_normalize_f32 r1 (of_int 0) (of_int 1) s1 = Some (r2, s2) ∧
    r1 ≠ r2 ∧ mem s2 !! r1 = Some out1 ∧ mem s2 !! r2 = Some out2 ∧
    same_shape out1 out2 ∧
    ∀ i, 0 ≤ i < width hill_image * height hill_image →
      is_Some (sample out1 i) ∧ sample out2 i = sample out1 i.
Proof.
  assert (Hwf : wf_image hill_image) by (apply (bool_decide_unpack _); vm_compute; exact I).
  assert (Hint : in_int (width hill_image * height hill_image)) by int_range.
  split; [exact (conj eq_refl (conj Hwf (conj eq_refl Hint)))|].
  exact (step_then_normalize 1%positive hill_image (f32_of_Z 2) heights_input
           eq_refl Hwf eq_refl Hint).
Defined.
